(** * The record decoder of the write-ahead log (package wal)

    A shallow embedding of the decoder of the write-ahead log: the frame
    codec [decodeFrameSize], the torn-write classifier [isTornEntry], the
    record decoder [decodeRecord] with its advance-and-retry continuation
    over the list of segment readers, and the accessors [updateCRC],
    [lastCRC] and [lastOffset].

    Go's [int64] is a [Z] kept in the range [-2^63, 2^63) by [int64], a
    [uint32] is a [Z], and a byte slice is a [list byte]. *)

From Stdlib Require Import ZArith List Bool Lia Arith.
From Stdlib Require Import Strings.Byte.
Import ListNotations.
Local Open Scope Z_scope.

(** ** Machine integers *)

Definition two64 : Z := 2 ^ 64.
Definition maxInt64 : Z := 2 ^ 63 - 1.
Definition minInt64 : Z := - 2 ^ 63.

(** [uint64(x)]: the conversion of an [int64] to its two's complement
    bit pattern. *)
Definition uint64 (x : Z) : Z := x mod two64.

(** [int64(x)]: the value of the low 64 bits of [x] read as signed; it is
    also the wrap-around of every [int64] operation. *)
Definition int64 (x : Z) : Z :=
  let u := x mod two64 in
  if u <? 2 ^ 63 then u else u - two64.

Definition int64_range (x : Z) : Prop := minInt64 <= x <= maxInt64.

(** ** Constants of the package *)

Definition minSectorSize : Z := 512.

(** frameSizeBytes is frame size in bytes, including record size and
    padding size. *)
Definition frameSizeBytes : Z := 8.

(** ** Frame codec *)

(** [decodeFrameSize]: the record size is stored in the lower 56 bits of
    the 64-bit length; non-zero padding is indicated by a set MSb (a
    negative length) and stored in the lower 3 bits of the length's most
    significant byte. *)
Definition decodeFrameSize (lenField : Z) : Z * Z :=
  let recBytes :=
    int64 (Z.land (uint64 lenField)
                  (Z.lxor (Z.shiftl 255 56) (two64 - 1))) in
  let padBytes :=
    if lenField <? 0
    then int64 (Z.land (Z.shiftr (uint64 lenField) 56) 7)
    else 0 in
  (recBytes, padBytes).

(** Modelled from the spec: the writer's side of the frame header, which
    is not among the sources (the wire format table: bits 0-55 hold
    recBytes; when padding is present bit 63 is set and bits 56-58 hold
    padBytes). *)
Definition encodeFrameHeader (recBytes padBytes : Z) : Z :=
  int64 (if padBytes =? 0
         then recBytes
         else Z.lor recBytes (Z.shiftl (Z.lor 128 padBytes) 56)).

(** ** Errors

    The error values the decoder returns or passes on.  Go compares them
    with [==]; [isEOF] is [err == io.EOF]. *)

Inductive error : Type :=
| io_EOF
| io_ErrUnexpectedEOF
| ErrMaxEntryLimit (recBytes fileSize offset padBytes entryLimit : Z)
    (* fmt.Errorf of "wal: max entry size limit exceeded, ..." with its
       five arguments *)
| ErrCRCMismatch
    (* walpb.ErrCRCMismatch *)
| ErrOther (code : Z).
    (* any other error of a collaborator: the file, the record schema *)

Definition isEOF (e : error) : bool :=
  match e with io_EOF => true | _ => false end.

(** ** Segment readers

    A [fileutil.FileBufReader]: a buffered sequential reader over one
    segment file together with the file's [FileInfo].  [unread] are the
    bytes it still delivers, [closing] is the error its [Read] returns
    once they are consumed ([io_EOF] for a file that simply ends), and
    [Size] is [FileInfo().Size()]. *)

Record FileBufReader : Type := mkReader {
  unread : list byte;
  closing : error;
  Size : Z
}.

(** [io.ReadFull(r, buf)] with [len(buf) = n]: reads exactly [n] bytes;
    it returns [io.EOF] only if no bytes were read, and
    [io.ErrUnexpectedEOF] if the end of the stream came after some but not
    all; any other error of the reader is passed on.  The first component
    holds the bytes that were read. *)
Definition ReadFull (r : FileBufReader) (n : Z)
  : list byte * option error * FileBufReader :=
  if n <=? Z.of_nat (length (unread r)) then
    (firstn (Z.to_nat n) (unread r), None,
     mkReader (skipn (Z.to_nat n) (unread r)) (closing r) (Size r))
  else
    (unread r,
     Some (if isEOF (closing r)
           then match unread r with
                | [] => io_EOF
                | _ :: _ => io_ErrUnexpectedEOF
                end
           else closing r),
     mkReader [] (closing r) (Size r)).

(** [binary.LittleEndian.Uint64]. *)
Fixpoint le_uint64 (bs : list byte) : Z :=
  match bs with
  | [] => 0
  | b :: rest => Z.of_N (Byte.to_N b) + 256 * le_uint64 rest
  end.

(** [readInt64]: [binary.Read] of one little-endian [int64]; on an error
    the value is left at zero. *)
Definition readInt64 (r : FileBufReader) : Z * option error * FileBufReader :=
  match ReadFull r 8 with
  | (bs, None, r') => (int64 (le_uint64 bs), None, r')
  | (_, Some e, r') => (0, Some e, r')
  end.

(** ** Records

    [walpb.Record]: the type, the declared checksum and the data. *)

Record walpb_Record : Type := mkRecord {
  Type_ : Z;
  Crc : Z;
  Data : list byte
}.

(** [rec.Reset()]. *)
Definition Reset : walpb_Record := mkRecord 0 0 [].

(** Modelled from the spec: [walpb.Record.Validate], which is not among
    the sources: it validates the declared checksum against the
    accumulated value, and a mismatch is an error. *)
Definition Validate (rec : walpb_Record) (sum : Z) : option error :=
  if Crc rec =? sum then None else Some ErrCRCMismatch.

(** ** The checksum accumulator

    [hash.Hash32], as far as the decoder uses it. *)

Class Hash32 (H : Type) : Type := {
  Write : H -> list byte -> H;
  Sum32 : H -> Z
}.

(** ** The decoder *)

Section Decoder.

Context {H : Type} `{Hash32 H}.

(** [crc.New(prev, crcTable)]. *)
Variable crc_New : Z -> H.

(** The record type of the checksum control records. *)
Variable crcType : Z.

(** [rec.Unmarshal(data)]: fills [rec] from the bytes and may fail. *)
Variable Unmarshal : walpb_Record -> list byte -> walpb_Record * option error.

(** The mutex of the decoder is left out: the calls are made one after
    the other. *)
Record decoder : Type := mkDecoder {
  brs : list FileBufReader;
  (** lastValidOff file offset following the last valid decoded record *)
  lastValidOff : Z;
  crc : H
}.

Definition newDecoder (r : list FileBufReader) : decoder :=
  mkDecoder r 0 (crc_New 0).

(** *** isTornEntry *)

(** [data[lo:hi]] *)
Definition slice (data : list byte) (lo hi : Z) : list byte :=
  firstn (Z.to_nat (hi - lo)) (skipn (Z.to_nat lo) data).

(** The first loop of [isTornEntry]: split data on sector boundaries.
    Every turn moves [curOff] forward by at least one byte, so
    [length data] turns are enough and the count never runs out (lemma
    [splitSectors_fuel]). *)
Fixpoint splitSectors (fuel : nat) (data : list byte)
         (fileOff : Z) (curOff : Z) (chunks : list (list byte))
  : list (list byte) :=
  if curOff <? Z.of_nat (length data) then
    match fuel with
    | O => chunks
    | S fuel' =>
      let chunkLen := int64 (minSectorSize - Z.rem fileOff minSectorSize) in
      let chunkLen :=
        if chunkLen >? Z.of_nat (length data) - curOff
        then Z.of_nat (length data) - curOff
        else chunkLen in
      splitSectors fuel' data
                   (int64 (fileOff + chunkLen))
                   (curOff + chunkLen)
                   (chunks ++ [slice data curOff (curOff + chunkLen)])
    end
  else chunks.

(** The inner loop: is every byte of the sector zero? *)
Fixpoint isZero (sect : list byte) : bool :=
  match sect with
  | [] => true
  | v :: rest => if Byte.eqb v x00 then isZero rest else false
  end.

(** The second loop: if any data for a sector chunk is all 0, it's a
    torn write. *)
Fixpoint anyZeroSector (chunks : list (list byte)) : bool :=
  match chunks with
  | [] => false
  | sect :: rest => if isZero sect then true else anyZeroSector rest
  end.

Definition isTornEntry (d : decoder) (data : list byte) : bool :=
  if negb (length (brs d) =? 1)%nat then false
  else
    let fileOff := int64 (lastValidOff d + frameSizeBytes) in
    anyZeroSector (splitSectors (length data) data fileOff 0 []).

(** *** decodeRecord *)

(** What one activation of [decodeRecord] does: it returns to the caller
    of [decode] with the decoder, the record and the error as they are
    then, or it calls itself on the decoder it has just advanced. *)
Inductive outcome : Type :=
| Return (d : decoder) (rec : walpb_Record) (err : option error)
| Retry (d : decoder).

Definition decodeRecord_body (d : decoder) (rec : walpb_Record) : outcome :=
  match brs d with
  | [] => Return d rec (Some io_EOF)
  | fileBufReader :: rest =>
    let '(l, err, reader) := readInt64 fileBufReader in
    if match err with
       | Some e => isEOF e
       | None => l =? 0
       end
    then
      (* hit end of file or preallocated space *)
      match rest with
      | [] => Return (mkDecoder rest (lastValidOff d) (crc d)) rec (Some io_EOF)
      | _ :: _ => Retry (mkDecoder rest 0 (crc d))
      end
    else
      let d := mkDecoder (reader :: rest) (lastValidOff d) (crc d) in
      match err with
      | Some e => Return d rec (Some e)
      | None =>
        let '(recBytes, padBytes) := decodeFrameSize l in
        (* The length of current WAL entry must be less than the
           remaining file size. *)
        let maxEntryLimit :=
          int64 (int64 (Size fileBufReader - lastValidOff d) - padBytes) in
        if recBytes >? maxEntryLimit then
          Return d rec
                 (Some (ErrMaxEntryLimit recBytes (Size fileBufReader)
                                         (lastValidOff d) padBytes
                                         maxEntryLimit))
        else
          let '(data, err, reader) := ReadFull reader (int64 (recBytes + padBytes)) in
          let d := mkDecoder (reader :: rest) (lastValidOff d) (crc d) in
          match err with
          | Some e =>
            (* ReadFull returns io.EOF only if no bytes were read; the
               decoder should treat this as an ErrUnexpectedEOF
               instead. *)
            Return d rec (Some (if isEOF e then io_ErrUnexpectedEOF else e))
          | None =>
            let '(rec, err) := Unmarshal rec (firstn (Z.to_nat recBytes) data) in
            match err with
            | Some e =>
              Return d rec
                     (Some (if isTornEntry d data
                            then io_ErrUnexpectedEOF else e))
            | None =>
              let valid :=
                mkDecoder (brs d)
                          (int64 (lastValidOff d
                                  + int64 (int64 (frameSizeBytes + recBytes)
                                           + padBytes)))
              in
              (* skip crc checking if the record type is crcType *)
              if negb (Type_ rec =? crcType) then
                let d := mkDecoder (brs d) (lastValidOff d)
                                   (Write (crc d) (Data rec)) in
                match Validate rec (Sum32 (crc d)) with
                | Some e =>
                  Return d rec
                         (Some (if isTornEntry d data
                                then io_ErrUnexpectedEOF else e))
                | None => Return (valid (crc d)) rec None
                end
              else Return (valid (crc d)) rec None
            end
          end
      end
  end.

(** The result of a call: the decoder and the record as the call leaves
    them, and the error it returns ([None] is Go's [nil]). *)
Record result : Type := mkResult {
  dec : decoder;
  out : walpb_Record;
  err : option error
}.

(** [decodeRecord] with a bound on the depth of its self-calls: [None]
    when the bound is reached. *)
Fixpoint decodeRecord_fuel (fuel : nat) (d : decoder) (rec : walpb_Record)
  : option result :=
  match fuel with
  | O => None
  | S fuel' =>
    match decodeRecord_body d rec with
    | Return d' rec' e => Some (mkResult d' rec' e)
    | Retry d' => decodeRecord_fuel fuel' d' rec
    end
  end.

(** [decodeRecord]: every self-call drops a reader, so a depth of the
    number of readers (and at least one) is enough (lemma
    [decodeRecord_fuel_decodeRecord]). *)
Definition decodeRecord (d : decoder) (rec : walpb_Record) : result :=
  match decodeRecord_fuel (Nat.max 1 (length (brs d))) d rec with
  | Some r => r
  | None => mkResult d rec (Some io_EOF)
  end.

(** [decode]: resets the record and decodes under the lock. *)
Definition decode (d : decoder) (rec : walpb_Record) : result :=
  decodeRecord d Reset.

Definition updateCRC (d : decoder) (prevCrc : Z) : decoder :=
  mkDecoder (brs d) (lastValidOff d) (crc_New prevCrc).

Definition lastCRC (d : decoder) : Z := Sum32 (crc d).

Definition lastOffset (d : decoder) : Z := lastValidOff d.

End Decoder.

(** ** The replay of the log *)

Section Runs.

Context {H : Type} `{Hash32 H}.
Variable crc_New : Z -> H.
Variable crcType : Z.
Variable Unmarshal : walpb_Record -> list byte -> walpb_Record * option error.

(** Modelled from the spec: the caller that replays the log, which is
    not among the sources.  It calls [decode] until an error stops it,
    and a control record "carries a checksum value used to reseed the
    chain": after decoding one the caller reseeds the decoder with the
    checksum the record declares.  The run of at most [n] calls gives
    the decoder at its end, the records decoded and the error that
    stopped it. *)
Fixpoint replay (n : nat) (d : decoder)
  : decoder * list walpb_Record * option error :=
  match n with
  | O => (d, [], None)
  | S n' =>
    let r := decode crcType Unmarshal d Reset in
    match err r with
    | Some e => (dec r, [], Some e)
    | None =>
      let d1 := if Type_ (out r) =? crcType
                then updateCRC crc_New (dec r) (Crc (out r))
                else dec r in
      let '(d', recs, e) := replay n' d1 in
      (d', out r :: recs, e)
    end
  end.

(** The checksum chain from the accumulator [h] on: every record
    declares the sum of the accumulator after its data. *)
Fixpoint chained (h : H) (recs : list walpb_Record) : Prop :=
  match recs with
  | [] => True
  | r :: rest =>
    Crc r = Sum32 (Write h (Data r)) /\ chained (Write h (Data r)) rest
  end.

(** The accumulator after the data of the records. *)
Definition absorbed (h : H) (recs : list walpb_Record) : H :=
  fold_left (fun h r => Write h (Data r)) recs h.

End Runs.

(** Segment files are far smaller than the range of [int64]. *)
Definition maxSegmentSize : Z := 2 ^ 62.

(** The invariant of the offsets: [newDecoder] establishes it over files
    of a size in range and the calls keep it (lemmas [newDecoder_ok] and
    [decodeRecord_ok]); under it no [int64] operation of the decoder
    wraps around. *)
Definition decoder_ok {H : Type} (d : @decoder H) : Prop :=
  0 <= lastValidOff d <= maxSegmentSize + 8
  /\ Forall (fun r => 0 <= Size r <= maxSegmentSize) (brs d).

(** ** The sector chunks of the specification

    The chunks of the torn-write detector as the specification words
    them, to be compared with the loop of [isTornEntry]: the bytes are cut
    at the sector boundaries of the file, so the first chunk runs from the
    absolute offset [off] to the next multiple of 512 (or to the end of
    the data) and every further chunk is one sector of 512 bytes, the last
    one being the remainder. *)

(** [chop fuel n data]: pieces of [n] bytes, [length data] turns are
    enough. *)
Fixpoint chop (fuel : nat) (n : nat) (data : list byte) : list (list byte) :=
  match fuel, data with
  | S fuel', _ :: _ => firstn n data :: chop fuel' n (skipn n data)
  | _, _ => []
  end.

Definition firstChunkLen (off : Z) (data : list byte) : Z :=
  Z.min (512 - off mod 512) (Z.of_nat (length data)).

Definition sectorChunks (off : Z) (data : list byte) : list (list byte) :=
  match data with
  | [] => []
  | _ :: _ =>
    let n := Z.to_nat (firstChunkLen off data) in
    firstn n data :: chop (length data) 512 (skipn n data)
  end.

(** The sector of the file that holds byte [i] of data that start at the
    absolute offset [off]. *)
Definition sectorOf (off : Z) (i : nat) : Z := (off + Z.of_nat i) / 512.

(** Sector [k] holds bytes of the data, and all it holds of them is
    zero. *)
Definition zeroSector (off : Z) (data : list byte) (k : Z) : Prop :=
  (exists i, (i < length data)%nat /\ sectorOf off i = k)
  /\ (forall i, (i < length data)%nat -> sectorOf off i = k ->
                nth i data x00 = x00).

(** ** A concrete environment

    Stand-ins for the collaborators of the decoder, which are not among
    the sources, after the values the WAL gives them: the CRC-32 of the
    Castagnoli polynomial for the accumulator, the protocol-buffer wire
    format of [walpb.Record] (fields 1 and 2 are varints, field 3 is
    length-delimited) for [Unmarshal], and 4 for [crcType].  Only the
    examples and the concrete runs below are stated in it; the theorems
    hold in any environment. *)

Module Sample.

Definition Castagnoli : Z := 0x82f63b78.

(** One entry of the table of the polynomial: eight shift steps. *)
Fixpoint tableEntry (j : nat) (c : Z) : Z :=
  match j with
  | O => c
  | S j' =>
    tableEntry j' (if Z.testbit c 0
                   then Z.lxor (Z.shiftr c 1) Castagnoli
                   else Z.shiftr c 1)
  end.

Definition byteZ (b : byte) : Z := Z.of_N (Byte.to_N b).

(** [crc32.Update(crc, crcTable, p)]. *)
Definition crc32_Update (c : Z) (p : list byte) : Z :=
  Z.lxor
    (fold_left
       (fun c v =>
          Z.lxor (tableEntry 8 (Z.lxor (Z.land c 255) (byteZ v)))
                 (Z.shiftr c 8))
       p (Z.lxor c 0xffffffff))
    0xffffffff.

(** The digest of package crc is its running value. *)
#[global] Instance digest : Hash32 Z :=
  {| Write := crc32_Update; Sum32 := fun c => c |}.

Definition crc_New (prev : Z) : Z := prev.

Definition crcType : Z := 4.

(** A varint: the value and the bytes after it, [None] when the bytes
    end inside it. *)
Fixpoint varint (fuel : nat) (shift : Z) (bs : list byte)
  : option (Z * list byte) :=
  match fuel, bs with
  | S fuel', b :: rest =>
    let v := Z.shiftl (Z.land (byteZ b) 0x7f) shift in
    if byteZ b <? 0x80 then Some (v, rest)
    else match varint fuel' (shift + 7) rest with
         | Some (w, rest') => Some (Z.lor v w, rest')
         | None => None
         end
  | _, _ => None
  end.

Fixpoint fields (fuel : nat) (rec : walpb_Record) (bs : list byte)
  : walpb_Record * option error :=
  match fuel, bs with
  | _, [] => (rec, None)
  | O, _ => (rec, Some (ErrOther 0))
  | S fuel', _ =>
    match varint 10 0 bs with
    | None => (rec, Some io_ErrUnexpectedEOF)
    | Some (wire, rest) =>
      let fieldNum := Z.shiftr wire 3 in
      let wireType := Z.land wire 7 in
      if (fieldNum =? 1) && (wireType =? 0) then
        match varint 10 0 rest with
        | None => (rec, Some io_ErrUnexpectedEOF)
        | Some (v, rest') =>
          fields fuel' (mkRecord (int64 v) (Crc rec) (Data rec)) rest'
        end
      else if (fieldNum =? 2) && (wireType =? 0) then
        match varint 10 0 rest with
        | None => (rec, Some io_ErrUnexpectedEOF)
        | Some (v, rest') =>
          fields fuel' (mkRecord (Type_ rec) (v mod 2 ^ 32) (Data rec)) rest'
        end
      else if (fieldNum =? 3) && (wireType =? 2) then
        match varint 10 0 rest with
        | None => (rec, Some io_ErrUnexpectedEOF)
        | Some (n, rest') =>
          if n >? Z.of_nat (length rest')
          then (rec, Some io_ErrUnexpectedEOF)
          else fields fuel'
                      (mkRecord (Type_ rec) (Crc rec)
                                (firstn (Z.to_nat n) rest'))
                      (skipn (Z.to_nat n) rest')
        end
      else (rec, Some (ErrOther 1))
    end
  end.

Definition Unmarshal (rec : walpb_Record) (bs : list byte)
  : walpb_Record * option error :=
  fields (length bs) rec bs.

(** The [n] low bytes of [u], the lowest first. *)
Fixpoint le_bytes (n : nat) (u : Z) : list byte :=
  match n with
  | O => []
  | S n' =>
    match Byte.of_N (Z.to_N (u mod 256)) with
    | Some b => b :: le_bytes n' (u / 256)
    | None => []
    end
  end.

(** A frame: the header, the payload and the padding. *)
Definition frame (payload : list byte) (padBytes : Z) : list byte :=
  le_bytes 8 (uint64 (encodeFrameHeader (Z.of_nat (length payload)) padBytes))
  ++ payload ++ repeat x00 (Z.to_nat padBytes).

(** The bytes of a varint. *)
Fixpoint varintBytes (fuel : nat) (v : Z) : list byte :=
  match fuel with
  | O => []
  | S fuel' =>
    if v <? 0x80 then le_bytes 1 v
    else le_bytes 1 (Z.lor (v mod 0x80) 0x80) ++ varintBytes fuel' (v / 0x80)
  end.

(** The wire format of a record: the three fields in order. *)
Definition Marshal (rec : walpb_Record) : list byte :=
  [x08] ++ varintBytes 10 (uint64 (Type_ rec))
  ++ [x10] ++ varintBytes 10 (Crc rec)
  ++ match Data rec with
     | [] => []
     | _ :: _ => [x1a] ++ varintBytes 10 (Z.of_nat (length (Data rec)))
                      ++ Data rec
     end.

(** The frame of a record, padded to a multiple of eight bytes. *)
Definition encode (rec : walpb_Record) : list byte :=
  let payload := Marshal rec in
  frame payload ((8 - Z.of_nat (length payload) mod 8) mod 8).

(** A checksum control record with checksum 0: type 4, crc 0. *)
Definition crcRecord : list byte := [x08; x04; x10; x00].

(** A segment that holds the control record and nothing else. *)
Definition crcSegment : FileBufReader :=
  mkReader (frame crcRecord 4) io_EOF 16.

(** A segment whose only header declares 100 bytes in a file of 16. *)
Definition oversizedSegment : FileBufReader :=
  mkReader (le_bytes 8 100 ++ repeat x00 8) io_EOF 16.

(** A segment cut off three bytes into the payload of its frame. *)
Definition cutSegment : FileBufReader :=
  mkReader (firstn 11 (frame crcRecord 4)) io_EOF 16.

(** A segment that ends right after the header of its frame. *)
Definition headerOnlySegment : FileBufReader :=
  mkReader (firstn 8 (frame crcRecord 4)) io_EOF 16.

(** An entry record whose declared checksum is not the sum of its
    data. *)
Definition badRecord : walpb_Record := mkRecord 2 12345 [x61; x62].

Definition badCrcSegment : FileBufReader :=
  mkReader (encode badRecord) io_EOF 24.

(** A control record that declares the checksum 7 and two entry records
    that continue the chain from it. *)
Definition seedRecord : walpb_Record := mkRecord 4 7 [].

Definition entry1 : walpb_Record :=
  mkRecord 2 (crc32_Update 7 [x61; x62]) [x61; x62].

Definition entry2 : walpb_Record :=
  mkRecord 2 (crc32_Update (Crc entry1) [x63]) [x63].

Definition chainSegment : FileBufReader :=
  mkReader (encode seedRecord ++ encode entry1 ++ encode entry2) io_EOF 64.

(** A segment with two control records and preallocated space after
    them. *)
Definition fullSegment : FileBufReader :=
  mkReader (frame crcRecord 4 ++ frame crcRecord 4 ++ repeat x00 16)
           io_EOF 48.

(** A segment of preallocated space never written. *)
Definition emptySegment : FileBufReader :=
  mkReader (repeat x00 64) io_EOF 64.

Definition decodeRecord := decodeRecord crcType Unmarshal.
Definition decode := decode crcType Unmarshal.
Definition replay := replay crc_New crcType Unmarshal.
Definition newDecoder := newDecoder crc_New.

End Sample.

(** ** Runs of calls and well-formed segments *)

(** The byte of the value [x mod 256]. *)
Definition byteOf (x : Z) : byte :=
  match Byte.of_N (Z.to_N (x mod 256)) with
  | Some b => b
  | None => x00
  end.

(** [binary.LittleEndian.PutUint64]: the eight bytes of [u], the lowest
    first. *)
Fixpoint putUint (n : nat) (u : Z) : list byte :=
  match n with
  | O => []
  | S n' => byteOf u :: putUint n' (u / 256)
  end.

Definition putUint64 (u : Z) : list byte := putUint 8 u.

(** A frame as it lies in a segment file: the length field, the bytes of
    the record and the padding. *)
Record frame : Type := mkFrame {
  lenField : Z;
  payload : list byte;
  padding : list byte
}.

Definition frameBytes (f : frame) : list byte :=
  putUint64 (uint64 (lenField f)) ++ payload f ++ padding f.

Definition frameLen (f : frame) : Z :=
  8 + Z.of_nat (length (payload f)) + Z.of_nat (length (padding f)).

Definition framesLen (fs : list frame) : Z :=
  fold_right (fun f n => frameLen f + n) 0 fs.

(** The length field is an [int64] other than zero that declares the
    lengths of the record and of the padding. *)
Definition frame_ok (f : frame) : Prop :=
  int64_range (lenField f)
  /\ lenField f <> 0
  /\ decodeFrameSize (lenField f)
     = (Z.of_nat (length (payload f)), Z.of_nat (length (padding f))).

Section Runs_of_calls.

Context {H : Type} `{Hash32 H}.
Variable crcType : Z.
Variable Unmarshal : walpb_Record -> list byte -> walpb_Record * option error.

(** [n] calls of [decode] one after the other; the run stops at the first
    error.  It gives the decoder at its end, the records decoded and the
    error that stopped it. *)
Fixpoint decodeN (n : nat) (d : decoder)
  : decoder * list walpb_Record * option error :=
  match n with
  | O => (d, [], None)
  | S n' =>
    let r := decode crcType Unmarshal d Reset in
    match err r with
    | Some e => (dec r, [], Some e)
    | None =>
      let '(d', recs, e) := decodeN n' (dec r) in
      (d', out r :: recs, e)
    end
  end.

(** The accumulator after the records of a run: the data of every record
    that is not a control record, in order. *)
Definition absorbedData (h : H) (recs : list walpb_Record) : H :=
  fold_left (fun h r => if Type_ r =? crcType then h else Write h (Data r))
            recs h.

(** Every record that is not a control record declares the sum of the
    accumulator after its data. *)
Fixpoint validated (h : H) (recs : list walpb_Record) : Prop :=
  match recs with
  | [] => True
  | r :: rest =>
    if Type_ r =? crcType then validated h rest
    else Crc r = Sum32 (Write h (Data r))
         /\ validated (Write h (Data r)) rest
  end.

(** The frames unmarshal to the records, one each. *)
Fixpoint unmarshals (fs : list frame) (recs : list walpb_Record) : Prop :=
  match fs, recs with
  | [], [] => True
  | f :: fs', r :: recs' =>
    Unmarshal Reset (payload f) = (r, None) /\ unmarshals fs' recs'
  | _, _ => False
  end.

End Runs_of_calls.

(** The offset lies in the current segment, up to the eight bytes of a
    header: the size check of [decodeRecord] does not count them. *)
Definition offset_in_segment {H : Type} (d : @decoder H) : Prop :=
  0 <= lastValidOff d
  /\ match brs d with
     | [] => True
     | r :: _ => lastValidOff d <= Size r + 8
     end.

(** ** A concrete log

    Frames and segments in the concrete environment, for the examples of
    the runs. *)

Module Log.

(** The frame of a record: its wire format and the padding to a multiple
    of eight bytes. *)
Definition frameOf (rec : walpb_Record) : frame :=
  let bytes := Sample.Marshal rec in
  let pad := (8 - Z.of_nat (length bytes) mod 8) mod 8 in
  mkFrame (encodeFrameHeader (Z.of_nat (length bytes)) pad) bytes
          (repeat x00 (Z.to_nat pad)).

Definition control : walpb_Record := mkRecord 4 0 [].

Definition entryA : walpb_Record :=
  mkRecord 2 (Sample.crc32_Update 0 [x61; x62]) [x61; x62].

Definition entryB : walpb_Record :=
  mkRecord 2 (Sample.crc32_Update (Crc entryA) [x63]) [x63].

Definition entryC : walpb_Record :=
  mkRecord 2 (Sample.crc32_Update (Crc entryB) [x64; x65; x66])
           [x64; x65; x66].

(** A segment of 128 bytes with a control record, two entries and
    preallocated space after them. *)
Definition first : FileBufReader :=
  mkReader (flat_map frameBytes [frameOf control; frameOf entryA;
                                 frameOf entryB]
            ++ repeat x00 64)
           io_EOF 128.

(** The segment after it: a control record and one more entry, and the
    file ends there. *)
Definition second : FileBufReader :=
  mkReader (flat_map frameBytes [frameOf control; frameOf entryC] ++ [])
           io_EOF 40.

(** A frame that was announced and never written: the header and eight
    zero bytes. *)
Definition unwritten : FileBufReader :=
  mkReader (putUint64 (uint64 (encodeFrameHeader 4 4)) ++ repeat x00 8)
           io_EOF 64.

(** A record whose checksum field is wrong; its wire format takes eight
    bytes, none of them zero, and needs no padding. *)
Definition wrong : walpb_Record := mkRecord 2 12345 [x61].

Definition damaged : FileBufReader :=
  mkReader (frameBytes (frameOf wrong)) io_EOF 64.

(** A file that was 8 bytes long when it was opened and has grown by a
    whole frame since. *)
Definition grown : FileBufReader :=
  mkReader (frameBytes (frameOf control)) io_EOF 8.

Definition decodeN := decodeN Sample.crcType Sample.Unmarshal.

End Log.

(** ** Facts on the machine integers *)

Lemma int64_small (x : Z) : int64_range x -> int64 x = x.
Proof.
  unfold int64_range, int64, minInt64, maxInt64, two64. intros H.
  destruct (Z_lt_le_dec x 0) as [Hn | Hp].
  - replace (x mod 2 ^ 64) with (x + 2 ^ 64).
    + destruct (Z.ltb_spec (x + 2 ^ 64) (2 ^ 63)); lia.
    + apply Z.mod_unique with (q := -1); lia.
  - rewrite Z.mod_small by lia.
    destruct (Z.ltb_spec x (2 ^ 63)); lia.
Qed.

Lemma int64_in_range (x : Z) : int64_range (int64 x).
Proof.
  unfold int64_range, int64, minInt64, maxInt64, two64.
  pose proof (Z.mod_pos_bound x (2 ^ 64) ltac:(lia)).
  destruct (Z.ltb_spec (x mod 2 ^ 64) (2 ^ 63)); lia.
Qed.

Lemma low56_mask : Z.lxor (Z.shiftl 255 56) (two64 - 1) = Z.ones 56.
Proof. reflexivity. Qed.

Lemma decodeFrameSize_recBytes (l : Z) :
  fst (decodeFrameSize l) = l mod 2 ^ 56.
Proof.
  unfold decodeFrameSize, uint64. cbn [fst].
  rewrite low56_mask, Z.land_ones by lia.
  rewrite Z.mod_mod_divide by (exists (2 ^ 8); reflexivity).
  apply int64_small.
  pose proof (Z.mod_pos_bound l (2 ^ 56) ltac:(lia)).
  unfold int64_range, minInt64, maxInt64. lia.
Qed.

Lemma decodeFrameSize_padBytes (l : Z) :
  snd (decodeFrameSize l) =
  if l <? 0 then (uint64 l / 2 ^ 56) mod 8 else 0.
Proof.
  unfold decodeFrameSize. cbn [snd].
  destruct (l <? 0); [| reflexivity].
  rewrite Z.shiftr_div_pow2 by lia.
  change 7 with (Z.ones 3). rewrite Z.land_ones by lia.
  change (2 ^ 3) with 8.
  apply int64_small.
  assert (0 <= (uint64 l / 2 ^ 56) mod 8 < 8)
    by (apply Z.mod_pos_bound; reflexivity).
  unfold int64_range, minInt64, maxInt64. lia.
Qed.

Lemma land_shiftl_disjoint (a b n : Z) :
  0 <= n -> 0 <= a < 2 ^ n -> Z.land a (Z.shiftl b n) = 0.
Proof.
  intros Hn Ha. apply Z.bits_inj'. intros i Hi.
  rewrite Z.land_spec, Z.bits_0.
  destruct (Z_lt_le_dec i n).
  - rewrite Z.shiftl_spec_low by lia. apply andb_false_r.
  - replace (Z.testbit a i) with false; [reflexivity |].
    symmetry. destruct (Z.eq_dec a 0) as [-> | Hnz].
    + apply Z.bits_0.
    + apply Z.bits_above_log2; [lia |].
      apply Z.lt_le_trans with n; [| lia].
      apply Z.log2_lt_pow2; lia.
Qed.

Lemma lor_shiftl_add (a b n : Z) :
  0 <= n -> 0 <= a < 2 ^ n -> Z.lor a (Z.shiftl b n) = a + b * 2 ^ n.
Proof.
  intros Hn Ha.
  pose proof (land_shiftl_disjoint a b n Hn Ha) as Hd.
  rewrite <- Z.lxor_lor by exact Hd.
  rewrite <- Z.add_nocarry_lxor by exact Hd.
  now rewrite Z.shiftl_mul_pow2 by lia.
Qed.

(** Numerals for the powers of two, so that [lia] sees them. *)
Ltac numerals :=
  unfold int64_range, two64, maxInt64, minInt64 in *;
  change (2 ^ 64) with 18446744073709551616 in *;
  change (2 ^ 63) with 9223372036854775808 in *;
  change (2 ^ 56) with 72057594037927936 in *;
  change (2 ^ 8) with 256 in *;
  change (2 ^ 7) with 128 in *;
  change (2 ^ 3) with 8 in *.

Lemma uint64_int64 (x : Z) : uint64 (int64 x) = uint64 x.
Proof.
  unfold uint64, int64, two64.
  destruct (Z.ltb_spec (x mod 2 ^ 64) (2 ^ 63)).
  - apply Z.mod_mod. lia.
  - replace (x mod 2 ^ 64 - 2 ^ 64) with (x mod 2 ^ 64 + (-1) * 2 ^ 64) by lia.
    rewrite Z.mod_add by lia. apply Z.mod_mod. lia.
Qed.

Lemma int64_neg_iff (x : Z) :
  0 <= x < two64 -> (int64 x <? 0) = (2 ^ 63 <=? x).
Proof.
  unfold int64, two64. intros Hx. rewrite Z.mod_small by lia.
  destruct (Z.ltb_spec x (2 ^ 63)), (Z.leb_spec (2 ^ 63) x); lia.
Qed.

Lemma encodeFrameHeader_bits (recBytes padBytes : Z) :
  0 <= recBytes < 2 ^ 56 -> 0 < padBytes <= 7 ->
  Z.lor recBytes (Z.shiftl (Z.lor 128 padBytes) 56)
  = recBytes + (128 + padBytes) * 2 ^ 56.
Proof.
  intros Hr Hp.
  rewrite lor_shiftl_add by lia. f_equal. f_equal.
  rewrite Z.lor_comm. change 128 with (Z.shiftl 1 7).
  rewrite lor_shiftl_add by (numerals; lia).
  change (Z.shiftl 1 7) with 128. numerals. lia.
Qed.

(** C5. For recBytes < 2^56 and padBytes in [0,7] the header encoded per
    the wire format decodes to exactly (recBytes, padBytes); and
    decodeFrameSize has no error path: on every input it returns the low
    56 bits of the 64-bit pattern as recBytes and a padBytes in [0,7],
    which is zero when the input is not negative and bits 56-58
    otherwise. *)
Theorem decodeFrameSize_inverts_encoding :
  (forall recBytes padBytes : Z,
      0 <= recBytes < 2 ^ 56 -> 0 <= padBytes <= 7 ->
      decodeFrameSize (encodeFrameHeader recBytes padBytes)
      = (recBytes, padBytes))
  /\
  (forall lenField : Z,
      exists recBytes padBytes : Z,
        decodeFrameSize lenField = (recBytes, padBytes)
        /\ recBytes = Z.land (uint64 lenField) (Z.ones 56)
        /\ 0 <= recBytes < 2 ^ 56
        /\ 0 <= padBytes <= 7
        /\ (0 <= lenField -> padBytes = 0)
        /\ (lenField < 0 ->
            padBytes = Z.land (Z.shiftr (uint64 lenField) 56) 7)).
Proof.
  split.
  - intros r p Hr Hp.
    rewrite (surjective_pairing (decodeFrameSize _)).
    rewrite decodeFrameSize_recBytes, decodeFrameSize_padBytes.
    unfold encodeFrameHeader.
    destruct (Z.eqb_spec p 0) as [-> | Hnz].
    + rewrite int64_small
        by (unfold int64_range, minInt64, maxInt64; lia).
      rewrite Z.mod_small by lia.
      destruct (Z.ltb_spec r 0); [lia | reflexivity].
    + rewrite encodeFrameHeader_bits by lia.
      set (u := r + (128 + p) * 2 ^ 56).
      assert (Hu : 2 ^ 63 <= u < two64) by (unfold u; numerals; lia).
      rewrite int64_neg_iff by lia.
      destruct (Z.leb_spec (2 ^ 63) u); [| lia].
      rewrite uint64_int64. unfold uint64 at 1.
      rewrite (Z.mod_small u two64) by lia.
      assert (Hm : forall x, x mod two64 mod 2 ^ 56 = x mod 2 ^ 56)
        by (intro x; apply Z.mod_mod_divide; exists (2 ^ 8); reflexivity).
      replace (int64 u mod 2 ^ 56) with (u mod 2 ^ 56).
      2:{ rewrite <- (Hm (int64 u)), <- (Hm u).
          change (int64 u mod two64) with (uint64 (int64 u)).
          now rewrite uint64_int64. }
      unfold u.
      rewrite Z.mod_add, Z.div_add by lia.
      rewrite Z.mod_small, Z.div_small by lia.
      f_equal. replace (0 + (128 + p)) with (p + 16 * 8) by lia.
      rewrite Z.mod_add by lia. apply Z.mod_small. lia.
  - intros l.
    exists (fst (decodeFrameSize l)), (snd (decodeFrameSize l)).
    split; [apply surjective_pairing |].
    rewrite decodeFrameSize_recBytes, decodeFrameSize_padBytes.
    assert (Hm : uint64 l mod 2 ^ 56 = l mod 2 ^ 56)
      by (apply Z.mod_mod_divide; exists (2 ^ 8); reflexivity).
    rewrite Z.land_ones, Hm by lia.
    pose proof (Z.mod_pos_bound l (2 ^ 56) ltac:(lia)).
    assert (0 <= (uint64 l / 2 ^ 56) mod 8 < 8)
      by (apply Z.mod_pos_bound; reflexivity).
    repeat split; try lia.
    + destruct (l <? 0); lia.
    + destruct (l <? 0); lia.
    + intros Hl. destruct (Z.ltb_spec l 0); [lia | reflexivity].
    + intros Hl. destruct (Z.ltb_spec l 0); [| lia].
      rewrite Z.shiftr_div_pow2 by lia.
      change 7 with (Z.ones 3). now rewrite Z.land_ones by lia.
Qed.

Lemma decodeFrameSize_inverts_encoding_witness :
  0 <= 4 < 2 ^ 56 /\ 0 <= 4 <= 7
  /\ decodeFrameSize (encodeFrameHeader 4 4) = (4, 4).
Proof.
  split; [lia | split; [lia |]].
  apply (proj1 decodeFrameSize_inverts_encoding); lia.
Defined.

(** ** The torn-write classifier *)

Lemma isZero_Forall (sect : list byte) :
  isZero sect = true <-> Forall (fun v => v = x00) sect.
Proof.
  induction sect as [| v rest IH]; cbn [isZero].
  - split; [constructor | reflexivity].
  - destruct (Byte.eqb v x00) eqn:E.
    + apply Byte.byte_dec_bl in E. rewrite IH. split.
      * now constructor.
      * intros HF. now inversion HF.
    + split; [discriminate |].
      intros HF. inversion HF as [| ? ? Hv _]. subst v.
      discriminate E.
Qed.

Lemma anyZeroSector_exists (chunks : list (list byte)) :
  anyZeroSector chunks = true
  <-> exists sect, In sect chunks /\ Forall (fun v => v = x00) sect.
Proof.
  induction chunks as [| sect rest IH]; cbn [anyZeroSector].
  - split; [discriminate | intros [? [[] _]]].
  - destruct (isZero sect) eqn:E.
    + split; [| reflexivity]. intros _. exists sect. split.
      * now left.
      * now apply isZero_Forall.
    + rewrite IH. split.
      * intros [c [Hin Hc]]. exists c. split; [now right | exact Hc].
      * intros [c [[-> | Hin] Hc]].
        -- apply isZero_Forall in Hc. congruence.
        -- now exists c.
Qed.

Lemma chop_fuel (n : nat) :
  forall (f1 f2 : nat) (data : list byte),
    (0 < n)%nat -> (length data <= f1)%nat -> (length data <= f2)%nat ->
    chop f1 n data = chop f2 n data.
Proof.
  induction f1 as [| f1 IH]; intros f2 data Hn H1 H2.
  - destruct data; [| cbn in H1; lia]. now destruct f2.
  - destruct data as [| b rest]; [now destruct f2 |].
    destruct f2 as [| f2]; [cbn in H2; lia |].
    cbn [chop]. f_equal.
    assert (length (skipn n (b :: rest)) <= length rest)%nat.
    { rewrite length_skipn. cbn [length]. lia. }
    cbn [length] in H1, H2. apply IH; lia.
Qed.

Lemma chop_unfold (fuel n : nat) (data : list byte) :
  (0 < length data <= fuel)%nat ->
  chop fuel n data = firstn n data :: chop (fuel - 1) n (skipn n data).
Proof.
  intros Hl. destruct fuel as [| fuel]; [lia |].
  destruct data; [cbn in Hl; lia |].
  cbn [chop]. now rewrite Nat.sub_1_r.
Qed.

Lemma splitSectors_done (fuel : nat) (data : list byte)
      (fileOff curOff : Z) (chunks : list (list byte)) :
  Z.of_nat (length data) <= curOff ->
  splitSectors fuel data fileOff curOff chunks = chunks.
Proof.
  intros Hc. destruct fuel; cbn [splitSectors];
    destruct (Z.ltb_spec curOff (Z.of_nat (length data))); (lia || reflexivity).
Qed.

(** Every turn of the loop advances, whatever the offsets: the count of
    turns [length data - curOff] is never used up. *)
Lemma splitSectors_fuel :
  forall (fuel fuel' : nat) (data : list byte) (fileOff curOff : Z)
         (chunks : list (list byte)),
    Z.of_nat (length data) - curOff <= Z.of_nat fuel ->
    Z.of_nat (length data) - curOff <= Z.of_nat fuel' ->
    splitSectors fuel data fileOff curOff chunks
    = splitSectors fuel' data fileOff curOff chunks.
Proof.
  induction fuel as [| fuel IH]; intros fuel' data fileOff curOff chunks H1 H2.
  - now rewrite !splitSectors_done by lia.
  - destruct fuel' as [| fuel']; [now rewrite !splitSectors_done by lia |].
    cbn [splitSectors].
    destruct (Z.ltb_spec curOff (Z.of_nat (length data))); [| reflexivity].
    assert (Hrem : -512 < Z.rem fileOff 512 < 512).
    { pose proof (Z.rem_bound_pos fileOff 512).
      pose proof (Z.rem_bound_pos_neg fileOff 512).
      destruct (Z_lt_le_dec fileOff 0); lia. }
    unfold minSectorSize.
    rewrite (int64_small (512 - Z.rem fileOff 512)) by (numerals; lia).
    apply IH;
      destruct (Z.gtb_spec (512 - Z.rem fileOff 512)
                           (Z.of_nat (length data) - curOff)); lia.
Qed.

Lemma sector_room (fileOff : Z) :
  0 <= fileOff -> 1 <= 512 - fileOff mod 512 <= 512.
Proof.
  intros _. pose proof (Z.mod_pos_bound fileOff 512 ltac:(lia)). lia.
Qed.

(** One turn of the splitting loop, away from the ends of [int64]. *)
Lemma splitSectors_step (fuel : nat) (data : list byte)
      (fileOff curOff : Z) (chunks : list (list byte)) :
  0 <= curOff < Z.of_nat (length data) ->
  0 <= fileOff ->
  fileOff + (Z.of_nat (length data) - curOff) <= maxInt64 ->
  splitSectors (S fuel) data fileOff curOff chunks
  = let c := Z.min (512 - fileOff mod 512) (Z.of_nat (length data) - curOff) in
    splitSectors fuel data (fileOff + c) (curOff + c)
                 (chunks ++ [firstn (Z.to_nat c)
                                    (skipn (Z.to_nat curOff) data)]).
Proof.
  intros Hc Hf Hmax. cbn [splitSectors].
  destruct (Z.ltb_spec curOff (Z.of_nat (length data))); [| lia].
  unfold minSectorSize. rewrite Z.rem_mod_nonneg by lia.
  pose proof (sector_room fileOff Hf) as Hroom.
  rewrite (int64_small (512 - fileOff mod 512)) by (numerals; lia).
  set (len := Z.of_nat (length data)) in *.
  assert (Hcap : (if 512 - fileOff mod 512 >? len - curOff
                  then len - curOff else 512 - fileOff mod 512)
                 = Z.min (512 - fileOff mod 512) (len - curOff)).
  { destruct (Z.gtb_spec (512 - fileOff mod 512) (len - curOff)); lia. }
  rewrite Hcap. cbv zeta.
  set (c := Z.min (512 - fileOff mod 512) (len - curOff)).
  rewrite (int64_small (fileOff + c)) by (numerals; lia).
  unfold slice. now replace (curOff + c - curOff) with c by lia.
Qed.

(** From a sector boundary on, the loop cuts whole sectors. *)
Lemma splitSectors_aligned :
  forall (fuel : nat) (data : list byte) (fileOff curOff : Z)
         (chunks : list (list byte)),
    0 <= curOff <= Z.of_nat (length data) ->
    0 <= fileOff -> fileOff mod 512 = 0 ->
    fileOff + (Z.of_nat (length data) - curOff) <= maxInt64 ->
    Z.of_nat (length data) - curOff <= Z.of_nat fuel ->
    splitSectors fuel data fileOff curOff chunks
    = chunks ++ chop (length (skipn (Z.to_nat curOff) data)) 512
                     (skipn (Z.to_nat curOff) data).
Proof.
  induction fuel as [| fuel IH]; intros data fileOff curOff chunks Hc Hf Ha Hmax Hfuel.
  - rewrite splitSectors_done by lia.
    rewrite skipn_all2 by lia. cbn. now rewrite app_nil_r.
  - destruct (Z.eq_dec curOff (Z.of_nat (length data))) as [He | Hne].
    + rewrite splitSectors_done by lia.
      rewrite skipn_all2 by lia. cbn. now rewrite app_nil_r.
    + rewrite splitSectors_step by lia. cbv zeta. rewrite Ha, Z.sub_0_r.
      set (len := Z.of_nat (length data)) in *.
      set (rest := skipn (Z.to_nat curOff) data).
      assert (Hlen : Z.of_nat (length rest) = len - curOff).
      { unfold rest, len. rewrite length_skipn. lia. }
      assert (Hskip : skipn (Z.to_nat (curOff + Z.min 512 (len - curOff))) data
                      = skipn (Z.to_nat (Z.min 512 (len - curOff))) rest).
      { unfold rest. rewrite skipn_skipn. f_equal. lia. }
      assert (Hfirst : firstn (Z.to_nat (Z.min 512 (len - curOff))) rest
                       = firstn 512 rest).
      { destruct (Z_le_gt_dec 512 (len - curOff)).
        - now rewrite Z.min_l by lia.
        - rewrite Z.min_r by lia.
          rewrite !firstn_all2; [reflexivity | lia | lia]. }
      assert (Hnext : skipn (Z.to_nat (Z.min 512 (len - curOff))) rest
                      = skipn 512 rest).
      { destruct (Z_le_gt_dec 512 (len - curOff)).
        - now rewrite Z.min_l by lia.
        - rewrite Z.min_r by lia.
          rewrite !skipn_all2; [reflexivity | lia | lia]. }
      replace (chop (length rest) 512 rest)
        with (firstn 512 rest :: chop (length (skipn 512 rest)) 512 (skipn 512 rest)).
      2:{ rewrite (chop_unfold (length rest)) by lia. f_equal.
          apply chop_fuel; rewrite ?length_skipn; lia. }
      destruct (Z_le_gt_dec 512 (len - curOff)) as [Hfull | Hpart].
      * rewrite IH.
        -- rewrite Hskip, Hfirst, Hnext, <- app_assoc. reflexivity.
        -- lia.
        -- lia.
        -- rewrite Z.min_l by lia.
           replace (fileOff + 512) with (fileOff + 1 * 512) by lia.
           now rewrite Z.mod_add by lia.
        -- fold len. lia.
        -- fold len. lia.
      * rewrite splitSectors_done by (fold len; lia).
        rewrite Hfirst. do 2 f_equal.
        rewrite skipn_all2 by lia. reflexivity.
Qed.

(** The loop of [isTornEntry] cuts the data into the sector chunks of the
    specification. *)
Lemma splitSectors_sectorChunks (off : Z) (data : list byte) :
  0 <= off -> off + Z.of_nat (length data) <= maxInt64 ->
  splitSectors (length data) data off 0 [] = sectorChunks off data.
Proof.
  intros Hoff Hmax. destruct data as [| b rest]; [reflexivity |].
  remember (b :: rest) as data eqn:Edata.
  assert (Hlen : length data = S (length rest)) by now rewrite Edata.
  replace (sectorChunks off data)
    with (firstn (Z.to_nat (firstChunkLen off data)) data
          :: chop (length data) 512
                  (skipn (Z.to_nat (firstChunkLen off data)) data))
    by (rewrite Edata; reflexivity).
  rewrite Hlen at 1. rewrite splitSectors_step by lia.
  cbv zeta. rewrite Z.sub_0_r. cbn [skipn Z.to_nat app].
  fold (firstChunkLen off data).
  pose proof (sector_room off Hoff) as Hroom.
  set (c := firstChunkLen off data).
  assert (Hc : 1 <= c <= Z.of_nat (length data))
    by (unfold c, firstChunkLen; lia).
  destruct (Z.eq_dec c (Z.of_nat (length data))) as [He | Hne].
  - rewrite splitSectors_done by lia. f_equal.
    rewrite skipn_all2 by lia. now destruct (length data).
  - rewrite splitSectors_aligned.
    + cbn [app]. f_equal.
      replace (Z.to_nat (0 + c)) with (Z.to_nat c) by lia.
      apply chop_fuel; [lia | lia |]. rewrite length_skipn. lia.
    + lia.
    + lia.
    + assert (c = 512 - off mod 512) by (unfold c, firstChunkLen in *; lia).
      replace (off + c) with (off mod 512 + c + (off / 512) * 512)
        by (pose proof (Z.div_mod off 512 ltac:(lia)); lia).
      rewrite Z.mod_add by lia.
      replace (off mod 512 + c) with (0 + 1 * 512) by lia.
      now rewrite Z.mod_add by lia.
    + lia.
    + lia.
Qed.

Lemma chop_concat (n : nat) :
  forall (fuel : nat) (data : list byte),
    (0 < n)%nat -> (length data <= fuel)%nat ->
    concat (chop fuel n data) = data.
Proof.
  induction fuel as [| fuel IH]; intros data Hn Hl.
  - destruct data; [reflexivity | cbn in Hl; lia].
  - destruct data as [| b rest]; [reflexivity |].
    cbn [chop concat]. rewrite IH.
    + apply firstn_skipn.
    + exact Hn.
    + rewrite length_skipn. cbn [length] in *. lia.
Qed.

Lemma sectorChunks_concat (off : Z) (data : list byte) :
  concat (sectorChunks off data) = data.
Proof.
  unfold sectorChunks. destruct data as [| b rest]; [reflexivity |].
  cbv zeta. cbn [concat]. rewrite chop_concat.
  - apply firstn_skipn.
  - lia.
  - rewrite length_skipn. lia.
Qed.

Lemma sectorChunks_first (off : Z) (data : list byte) :
  0 <= off -> data <> [] ->
  Z.of_nat (length (hd [] (sectorChunks off data)))
  = Z.min (512 - off mod 512) (Z.of_nat (length data)).
Proof.
  intros Hoff Hne. unfold sectorChunks.
  destruct data as [| b rest]; [congruence |].
  cbv zeta. cbn [hd]. rewrite length_firstn.
  pose proof (sector_room off Hoff). unfold firstChunkLen. lia.
Qed.

Lemma sectorOf_first (off : Z) (i : nat) :
  0 <= off -> Z.of_nat i < 512 - off mod 512 ->
  sectorOf off i = off / 512.
Proof.
  intros Hoff Hi. unfold sectorOf. symmetry.
  pose proof (Z.mod_pos_bound off 512 ltac:(lia)).
  apply Z.div_unique with (r := off mod 512 + Z.of_nat i); [lia |].
  pose proof (Z.div_mod off 512 ltac:(lia)). lia.
Qed.

Lemma sectorOf_later (off : Z) (i : nat) :
  0 <= off -> 512 - off mod 512 <= Z.of_nat i ->
  sectorOf off i
  = sectorOf (off + (512 - off mod 512))
             (i - Z.to_nat (512 - off mod 512))
  /\ off / 512 < sectorOf off i.
Proof.
  intros Hoff Hi. unfold sectorOf.
  pose proof (Z.mod_pos_bound off 512 ltac:(lia)).
  pose proof (Z.div_mod off 512 ltac:(lia)).
  split.
  - f_equal. lia.
  - replace (off + Z.of_nat i)
      with ((Z.of_nat i - (512 - off mod 512)) + (off / 512 + 1) * 512) by lia.
    rewrite Z.div_add by lia.
    pose proof (Z.div_pos (Z.of_nat i - (512 - off mod 512)) 512
                          ltac:(lia) ltac:(lia)).
    lia.
Qed.

(** One sector at a time: the data have a zero sector when their share
    of the first sector is zero or what lies after it has one. *)
Lemma zeroSector_step (off : Z) (data : list byte) :
  0 <= off ->
  let n := Z.to_nat (512 - off mod 512) in
  (exists k, zeroSector off data k)
  <-> (data <> [] /\ Forall (fun v => v = x00) (firstn n data))
      \/ (exists k, zeroSector (off + (512 - off mod 512)) (skipn n data) k).
Proof.
  intros Hoff n.
  pose proof (Z.mod_pos_bound off 512 ltac:(lia)) as Hm.
  assert (Hn : Z.of_nat n = 512 - off mod 512) by (unfold n; lia).
  split.
  - intros (k & (i0 & Hi0 & Hk0) & Hz).
    destruct (Z.eq_dec k (off / 512)) as [Hk | Hk].
    + left. split; [destruct data; [cbn in Hi0; lia | discriminate] |].
      apply Forall_nth. intros j d Hj.
      rewrite length_firstn in Hj.
      rewrite nth_firstn.
      destruct (Nat.ltb_spec j n); [| lia].
      rewrite (nth_indep _ _ x00) by lia.
      apply Hz; [lia |]. rewrite Hk. apply sectorOf_first; lia.
    + right. exists k.
      assert (Hge : 512 - off mod 512 <= Z.of_nat i0).
      { destruct (Z_lt_le_dec (Z.of_nat i0) (512 - off mod 512)); [| lia].
        rewrite sectorOf_first in Hk0 by lia. congruence. }
      destruct (sectorOf_later off i0 Hoff Hge) as [Hs _].
      split.
      * exists (i0 - n)%nat. rewrite length_skipn. split; [lia |].
        unfold n. congruence.
      * intros j Hj Hkj. rewrite length_skipn in Hj.
        rewrite nth_skipn. apply Hz; [lia |].
        destruct (sectorOf_later off (n + j) Hoff ltac:(lia)) as [Hs' _].
        rewrite Hs'. rewrite <- Hkj. f_equal. unfold n. lia.
  - intros [[Hne HF] | (k & (j0 & Hj0 & Hk0) & Hz)].
    + exists (off / 512). split.
      * exists 0%nat. split; [destruct data; [congruence | cbn; lia] |].
        apply sectorOf_first; lia.
      * intros i Hi Hk.
        assert (Hlt : Z.of_nat i < 512 - off mod 512).
        { destruct (Z_lt_le_dec (Z.of_nat i) (512 - off mod 512)); [lia |].
          destruct (sectorOf_later off i Hoff ltac:(lia)) as [_ Hgt]. lia. }
        rewrite Forall_nth in HF.
        specialize (HF i x00). rewrite length_firstn, nth_firstn in HF.
        destruct (Nat.ltb_spec i n); [| lia]. apply HF. lia.
    + rewrite length_skipn in Hj0. exists k. split.
      * exists (n + j0)%nat. split; [lia |].
        destruct (sectorOf_later off (n + j0) Hoff ltac:(lia)) as [Hs _].
        rewrite Hs, <- Hk0. f_equal. unfold n. lia.
      * intros i Hi Hk.
        assert (Hge : 512 - off mod 512 <= Z.of_nat i).
        { destruct (Z_lt_le_dec (Z.of_nat i) (512 - off mod 512)); [| lia].
          rewrite sectorOf_first in Hk by lia.
          assert (off / 512 < k).
          { rewrite <- Hk0. unfold sectorOf.
            pose proof (Z.div_mod off 512 ltac:(lia)).
            replace (off + (512 - off mod 512) + Z.of_nat j0)
              with (Z.of_nat j0 + (off / 512 + 1) * 512) by lia.
            rewrite Z.div_add by lia.
            pose proof (Z.div_pos (Z.of_nat j0) 512 ltac:(lia) ltac:(lia)).
            lia. }
          lia. }
        destruct (sectorOf_later off i Hoff Hge) as [Hs _].
        replace i with (n + (i - n))%nat by lia.
        rewrite <- nth_skipn. apply Hz.
        -- rewrite length_skipn. lia.
        -- rewrite <- Hk, Hs. f_equal. 
Qed.

Lemma zeroSector_nil (off k : Z) : ~ zeroSector off [] k.
Proof. intros [(i & Hi & _) _]. cbn in Hi. lia. Qed.

(** From a sector boundary on, the pieces of 512 bytes are the sectors. *)
Lemma chop_zeroSector :
  forall (fuel : nat) (data : list byte) (off : Z),
    0 <= off -> off mod 512 = 0 -> (length data <= fuel)%nat ->
    (exists sect, In sect (chop fuel 512 data)
                  /\ Forall (fun v => v = x00) sect)
    <-> exists k, zeroSector off data k.
Proof.
  induction fuel as [| fuel IH]; intros data off Hoff Ha Hlen.
  - destruct data; [| cbn in Hlen; lia]. split.
    + intros (sect & [] & _).
    + intros [k Hk]. now apply zeroSector_nil in Hk.
  - destruct data as [| b rest] eqn:Edata.
    { split.
      - intros (sect & [] & _).
      - intros [k Hk]. now apply zeroSector_nil in Hk. }
    rewrite <- Edata in *.
    assert (Hne : data <> []) by (rewrite Edata; discriminate).
    rewrite (zeroSector_step off data Hoff). cbv zeta.
    rewrite Ha, Z.sub_0_r. change (Z.to_nat 512) with 512%nat.
    rewrite <- (IH (skipn 512 data) (off + 512)).
    + replace (chop (S fuel) 512 data)
        with (firstn 512 data :: chop fuel 512 (skipn 512 data))
        by (rewrite Edata; reflexivity).
      split.
      * intros (sect & [<- | Hin] & Hz); [left; auto | right; eauto].
      * intros [[_ Hz] | (sect & Hin & Hz)].
        -- exists (firstn 512 data). split; [now left | exact Hz].
        -- exists sect. split; [now right | exact Hz].
    + lia.
    + replace (off + 512) with (off + 1 * 512) by lia.
      now rewrite Z.mod_add by lia.
    + rewrite length_skipn. rewrite Edata in *. cbn [length] in *. lia.
Qed.

(** The sector chunks are the shares the sectors of the file have in the
    data: a chunk of zero bytes is a sector all of whose bytes in the data
    are zero. *)
Lemma sectorChunks_zeroSector (off : Z) (data : list byte) :
  0 <= off ->
  (exists sect, In sect (sectorChunks off data)
                /\ Forall (fun v => v = x00) sect)
  <-> exists k, zeroSector off data k.
Proof.
  intros Hoff. destruct data as [| b rest] eqn:Edata.
  { split.
    - intros (sect & [] & _).
    - intros [k Hk]. now apply zeroSector_nil in Hk. }
  rewrite <- Edata in *.
  assert (Hne : data <> []) by (rewrite Edata; discriminate).
  pose proof (Z.mod_pos_bound off 512 ltac:(lia)) as Hm.
  set (n := Z.to_nat (512 - off mod 512)).
  assert (Hchunks : sectorChunks off data
                    = firstn n data :: chop (length (skipn n data)) 512
                                            (skipn n data)).
  { replace (sectorChunks off data)
      with (firstn (Z.to_nat (firstChunkLen off data)) data
            :: chop (length data) 512
                    (skipn (Z.to_nat (firstChunkLen off data)) data))
      by (rewrite Edata; reflexivity).
    unfold firstChunkLen.
    destruct (Z_le_gt_dec (512 - off mod 512) (Z.of_nat (length data))).
    - rewrite Z.min_l by lia. fold n. f_equal.
      apply chop_fuel; rewrite ?length_skipn; lia.
    - rewrite Z.min_r by lia. rewrite Nat2Z.id.
      rewrite !firstn_all2 by (unfold n; lia).
      rewrite !skipn_all2 by (unfold n; lia).
      f_equal. now destruct (length data). }
  rewrite Hchunks, (zeroSector_step off data Hoff). cbv zeta. fold n.
  rewrite <- (chop_zeroSector (length (skipn n data)) (skipn n data)
                              (off + (512 - off mod 512))).
  - split.
    + intros (sect & [<- | Hin] & Hz); [left; auto | right; eauto].
    + intros [[_ Hz] | (sect & Hin & Hz)].
      * exists (firstn n data). split; [now left | exact Hz].
      * exists sect. split; [now right | exact Hz].
  - lia.
  - pose proof (Z.div_mod off 512 ltac:(lia)).
    replace (off + (512 - off mod 512)) with (0 + (off / 512 + 1) * 512) by lia.
    now rewrite Z.mod_add by lia.
  - lia.
Qed.

(** C1. The torn-write classifier: the chunks its loop cuts are the
    sector chunks counted from the absolute offset lastValidOff + 8 (the
    first one 512 - ((lastValidOff + 8) mod 512) bytes long, capped at
    the length of the data, and together they are the data); the entry
    is classified as torn if and only if exactly one reader remains and
    one of the chunks holds zero bytes only, that is, some 512-byte
    sector of the file holds bytes of the data and holds only zero
    bytes of them; and with any other number of readers no data is
    classified as torn. *)
Theorem isTornEntry_iff_zero_sector {H : Type} (d : @decoder H)
        (data : list byte) :
  0 <= lastValidOff d ->
  lastValidOff d + 8 + Z.of_nat (length data) <= maxInt64 ->
  let chunks :=
    splitSectors (length data) data
                 (int64 (lastValidOff d + frameSizeBytes)) 0 [] in
  chunks = sectorChunks (lastValidOff d + 8) data
  /\ concat chunks = data
  /\ (data <> [] ->
      Z.of_nat (length (hd [] chunks))
      = Z.min (512 - (lastValidOff d + 8) mod 512)
              (Z.of_nat (length data)))
  /\ (isTornEntry d data = true
      <-> length (brs d) = 1%nat
          /\ exists sect, In sect chunks
                          /\ Forall (fun v => v = x00) sect)
  /\ (isTornEntry d data = true
      <-> length (brs d) = 1%nat
          /\ exists k, zeroSector (lastValidOff d + 8) data k)
  /\ (length (brs d) <> 1%nat ->
      forall bytes : list byte, isTornEntry d bytes = false).
Proof.
  intros Hlo Hhi chunks.
  assert (Hchunks : chunks = sectorChunks (lastValidOff d + 8) data).
  { unfold chunks, frameSizeBytes.
    rewrite int64_small by (numerals; lia).
    apply splitSectors_sectorChunks; lia. }
  split; [exact Hchunks |].
  split; [rewrite Hchunks; apply sectorChunks_concat |].
  split.
  { intros Hne. rewrite Hchunks. apply sectorChunks_first; [lia | exact Hne]. }
  assert (Htorn : isTornEntry d data = true
                  <-> length (brs d) = 1%nat
                      /\ exists sect, In sect chunks
                                      /\ Forall (fun v => v = x00) sect).
  { unfold isTornEntry. fold chunks.
    destruct (Nat.eqb_spec (length (brs d)) 1) as [He | Hn]; cbn [negb].
    - rewrite anyZeroSector_exists. tauto.
    - split; [discriminate | tauto]. }
  split; [exact Htorn |].
  split.
  - rewrite Htorn, Hchunks.
    now rewrite (sectorChunks_zeroSector (lastValidOff d + 8) data) by lia.
  - intros Hn bytes. unfold isTornEntry.
    destruct (Nat.eqb_spec (length (brs d)) 1); [contradiction | reflexivity].
Qed.

(** A torn tail: one reader left, the record at offset 504 of its file,
    and the second of its sectors never written. *)
Lemma isTornEntry_iff_zero_sector_witness :
  let d := mkDecoder [Sample.emptySegment] 496 (Sample.crc_New 0) in
  let data := [x08; x02; x10; x01; x1a; x04; x61; x62; x00; x00; x00; x00] in
  splitSectors (length data) data (int64 (lastValidOff d + frameSizeBytes)) 0 []
  = [[x08; x02; x10; x01; x1a; x04; x61; x62]; [x00; x00; x00; x00]]
  /\ isTornEntry d data = true.
Proof.
  intros d data.
  destruct (isTornEntry_iff_zero_sector d data) as (Hc & _ & _ & Ht & _).
  - cbn. lia.
  - cbn. unfold maxInt64. lia.
  - split; [rewrite Hc; reflexivity |].
    apply Ht. split; [reflexivity |].
    exists [x00; x00; x00; x00]. rewrite Hc. split.
    + right. now left.
    + repeat constructor.
Defined.

(** ** Reading from a segment *)

Lemma decodeFrameSize_bounds (l recBytes padBytes : Z) :
  decodeFrameSize l = (recBytes, padBytes) ->
  0 <= recBytes < 2 ^ 56 /\ 0 <= padBytes <= 7.
Proof.
  intros Hd.
  pose proof (decodeFrameSize_recBytes l) as Hr.
  pose proof (decodeFrameSize_padBytes l) as Hp.
  rewrite Hd in Hr, Hp. cbn [fst snd] in Hr, Hp.
  pose proof (Z.mod_pos_bound l (2 ^ 56) ltac:(lia)).
  assert (0 <= (uint64 l / 2 ^ 56) mod 8 < 8)
    by (apply Z.mod_pos_bound; reflexivity).
  destruct (l <? 0); lia.
Qed.

Lemma ReadFull_ok (r r' : FileBufReader) (n : Z) (data : list byte) :
  0 <= n ->
  ReadFull r n = (data, None, r') ->
  n <= Z.of_nat (length (unread r))
  /\ data = firstn (Z.to_nat n) (unread r)
  /\ Z.of_nat (length data) = n
  /\ r' = mkReader (skipn (Z.to_nat n) (unread r)) (closing r) (Size r).
Proof.
  unfold ReadFull. intros Hn.
  destruct (Z.leb_spec n (Z.of_nat (length (unread r)))); [| discriminate].
  intros E. injection E as <- <-.
  repeat split; try lia. rewrite length_firstn. lia.
Qed.

Lemma ReadFull_short (r : FileBufReader) (n : Z) :
  Z.of_nat (length (unread r)) < n ->
  ReadFull r n
  = (unread r,
     Some (if isEOF (closing r)
           then match unread r with
                | [] => io_EOF
                | _ :: _ => io_ErrUnexpectedEOF
                end
           else closing r),
     mkReader [] (closing r) (Size r)).
Proof.
  unfold ReadFull. intros Hn.
  destruct (Z.leb_spec n (Z.of_nat (length (unread r)))); [lia | reflexivity].
Qed.

Lemma readInt64_ok (r r' : FileBufReader) (l : Z) :
  readInt64 r = (l, None, r') ->
  8 <= Z.of_nat (length (unread r))
  /\ l = int64 (le_uint64 (firstn 8 (unread r)))
  /\ r' = mkReader (skipn 8 (unread r)) (closing r) (Size r).
Proof.
  unfold readInt64.
  destruct (ReadFull r 8) as [[bs [e |]] r1] eqn:E; [discriminate |].
  intros E'. injection E' as <- <-.
  apply ReadFull_ok in E; [| lia].
  destruct E as (Hl & -> & _ & ->). auto.
Qed.

Lemma readInt64_Size (r r' : FileBufReader) (l : Z) (e : option error) :
  readInt64 r = (l, e, r') -> Size r' = Size r.
Proof.
  unfold readInt64, ReadFull.
  destruct (8 <=? Z.of_nat (length (unread r))).
  - intros E. now injection E as _ _ <-.
  - intros E. now injection E as _ _ <-.
Qed.

Lemma ReadFull_Size (r r' : FileBufReader) (n : Z) (data : list byte)
      (e : option error) :
  ReadFull r n = (data, e, r') -> Size r' = Size r.
Proof.
  unfold ReadFull. destruct (n <=? Z.of_nat (length (unread r)));
    intros E; now injection E as _ _ <-.
Qed.

(** ** The self-calls of decodeRecord *)

Section Calls.

Context {H : Type} `{Hash32 H}.
Variable crcType : Z.
Variable Unmarshal : walpb_Record -> list byte -> walpb_Record * option error.

(** A self-call is made on the decoder with the front reader dropped,
    the offset reset and the accumulator kept, and only when a reader
    is left. *)
Lemma decodeRecord_body_Retry (d d' : decoder) (rec : walpb_Record) :
  decodeRecord_body crcType Unmarshal d rec = Retry d' ->
  exists r, brs d = r :: brs d'
            /\ brs d' <> []
            /\ d' = mkDecoder (brs d') 0 (crc d).
Proof.
  unfold decodeRecord_body.
  destruct (brs d) as [| r rest]; [discriminate |].
  destruct (readInt64 r) as [[l e] r1].
  destruct (match e with Some e0 => isEOF e0 | None => l =? 0 end).
  - destruct rest as [| r2 rest]; [discriminate |].
    intros E. injection E as <-. exists r. cbn. repeat split. discriminate.
  - destruct e; [discriminate |].
    destruct (decodeFrameSize l) as [recBytes padBytes].
    destruct (recBytes >? _); [discriminate |].
    destruct (ReadFull r1 _) as [[data [e |]] r2]; [discriminate |].
    destruct (Unmarshal rec _) as [rec1 [e |]]; [discriminate |].
    destruct (negb _); [| discriminate].
    destruct (Validate _ _); discriminate.
Qed.

Lemma decodeRecord_fuel_enough :
  forall (fuel : nat) (d : decoder) (rec : walpb_Record),
    (1 <= fuel)%nat -> (length (brs d) <= fuel)%nat ->
    exists r, decodeRecord_fuel crcType Unmarshal fuel d rec = Some r.
Proof.
  induction fuel as [| fuel IH]; intros d rec H1 Hlen; [lia |].
  cbn [decodeRecord_fuel].
  destruct (decodeRecord_body crcType Unmarshal d rec) as [d' rec' e | d'] eqn:E.
  - eauto.
  - apply decodeRecord_body_Retry in E. destruct E as (r & Hb & Hne & _).
    rewrite Hb in Hlen. cbn [length] in Hlen.
    apply IH; [| lia].
    destruct (brs d'); [congruence | cbn [length] in *; lia].
Qed.

Lemma decodeRecord_fuel_more :
  forall (fuel fuel' : nat) (d : decoder) (rec : walpb_Record) (r : result),
    decodeRecord_fuel crcType Unmarshal fuel d rec = Some r ->
    (fuel <= fuel')%nat ->
    decodeRecord_fuel crcType Unmarshal fuel' d rec = Some r.
Proof.
  induction fuel as [| fuel IH]; intros fuel' d rec r E Hle; [discriminate |].
  destruct fuel' as [| fuel']; [lia |].
  cbn [decodeRecord_fuel] in *.
  destruct (decodeRecord_body crcType Unmarshal d rec); [exact E |].
  apply IH with (1 := E). lia.
Qed.

Lemma decodeRecord_fuel_decodeRecord (fuel : nat) (d : decoder)
      (rec : walpb_Record) :
  (1 <= fuel)%nat -> (length (brs d) <= fuel)%nat ->
  decodeRecord_fuel crcType Unmarshal fuel d rec
  = Some (decodeRecord crcType Unmarshal d rec).
Proof.
  intros H1 Hlen. unfold decodeRecord.
  destruct (decodeRecord_fuel_enough (Nat.max 1 (length (brs d))) d rec)
    as [r Hr]; [lia | lia |].
  rewrite Hr. apply decodeRecord_fuel_more with (1 := Hr). lia.
Qed.

Lemma decodeRecord_Return (d d' : decoder) (rec rec' : walpb_Record)
      (e : option error) :
  decodeRecord_body crcType Unmarshal d rec = Return d' rec' e ->
  decodeRecord crcType Unmarshal d rec = mkResult d' rec' e.
Proof.
  intros E.
  pose proof (decodeRecord_fuel_decodeRecord (S (length (brs d))) d rec
                ltac:(lia) ltac:(lia)) as Hf.
  cbn [decodeRecord_fuel] in Hf. rewrite E in Hf. now injection Hf.
Qed.

Lemma decodeRecord_Retry (d d' : decoder) (rec : walpb_Record) :
  decodeRecord_body crcType Unmarshal d rec = Retry d' ->
  decodeRecord crcType Unmarshal d rec = decodeRecord crcType Unmarshal d' rec.
Proof.
  intros E.
  pose proof (decodeRecord_fuel_decodeRecord (S (length (brs d))) d rec
                ltac:(lia) ltac:(lia)) as Hf.
  cbn [decodeRecord_fuel] in Hf. rewrite E in Hf.
  apply decodeRecord_body_Retry in E. destruct E as (r & Hb & Hne & _).
  rewrite decodeRecord_fuel_decodeRecord in Hf.
  - now injection Hf.
  - rewrite Hb. cbn [length]. lia.
  - rewrite Hb. cbn [length]. lia.
Qed.

(** *** One activation that reads a header *)

Lemma decodeRecord_body_nil (d : decoder) (rec : walpb_Record) :
  brs d = [] ->
  decodeRecord_body crcType Unmarshal d rec = Return d rec (Some io_EOF).
Proof. intros E. unfold decodeRecord_body. now rewrite E. Qed.

Lemma decodeRecord_body_exhausted (d : decoder) (rec : walpb_Record)
      (r r1 : FileBufReader) (rest : list FileBufReader)
      (l : Z) (e : option error) :
  brs d = r :: rest ->
  readInt64 r = (l, e, r1) ->
  e = Some io_EOF \/ (e = None /\ l = 0) ->
  decodeRecord_body crcType Unmarshal d rec
  = match rest with
    | [] => Return (mkDecoder [] (lastValidOff d) (crc d)) rec (Some io_EOF)
    | _ :: _ => Retry (mkDecoder rest 0 (crc d))
    end.
Proof.
  intros Hb Hr He. unfold decodeRecord_body. rewrite Hb, Hr.
  destruct He as [-> | [-> ->]]; cbn; now destruct rest.
Qed.

Lemma decodeRecord_body_read_error (d : decoder) (rec : walpb_Record)
      (r r1 : FileBufReader) (rest : list FileBufReader)
      (l : Z) (e : error) :
  brs d = r :: rest ->
  readInt64 r = (l, Some e, r1) ->
  isEOF e = false ->
  decodeRecord_body crcType Unmarshal d rec
  = Return (mkDecoder (r1 :: rest) (lastValidOff d) (crc d)) rec (Some e).
Proof.
  intros Hb Hr He. unfold decodeRecord_body. rewrite Hb, Hr, He.
  reflexivity.
Qed.

Lemma sizes_in_range (d : @decoder H) (r : FileBufReader)
      (rest : list FileBufReader) :
  decoder_ok d -> brs d = r :: rest ->
  0 <= lastValidOff d <= maxSegmentSize + 8
  /\ 0 <= Size r <= maxSegmentSize.
Proof.
  intros [Hoff Hall] Hb. rewrite Hb in Hall.
  inversion Hall; subst. auto.
Qed.

Lemma decodeRecord_body_limit (d : decoder) (rec : walpb_Record)
      (r r1 : FileBufReader) (rest : list FileBufReader)
      (l recBytes padBytes : Z) :
  decoder_ok d ->
  brs d = r :: rest ->
  readInt64 r = (l, None, r1) -> l <> 0 ->
  decodeFrameSize l = (recBytes, padBytes) ->
  recBytes > Size r - lastValidOff d - padBytes ->
  decodeRecord_body crcType Unmarshal d rec
  = Return (mkDecoder (r1 :: rest) (lastValidOff d) (crc d)) rec
           (Some (ErrMaxEntryLimit recBytes (Size r) (lastValidOff d)
                                   padBytes
                                   (Size r - lastValidOff d - padBytes))).
Proof.
  intros Hok Hb Hr Hl Hd Hgt.
  destruct (sizes_in_range d r rest Hok Hb) as [Hoff Hsz].
  destruct (decodeFrameSize_bounds _ _ _ Hd) as [Hrb Hpb].
  unfold maxSegmentSize in *.
  unfold decodeRecord_body. rewrite Hb, Hr.
  destruct (Z.eqb_spec l 0); [contradiction |].
  rewrite Hd. cbn [lastValidOff crc].
  rewrite (int64_small (Size r - lastValidOff d)) by (numerals; lia).
  rewrite (int64_small (Size r - lastValidOff d - padBytes))
    by (numerals; lia).
  destruct (Z.gtb_spec recBytes (Size r - lastValidOff d - padBytes));
    [reflexivity | lia].
Qed.

Lemma decodeRecord_body_frame (d : decoder) (rec : walpb_Record)
      (r r1 : FileBufReader) (rest : list FileBufReader)
      (l recBytes padBytes : Z) :
  decoder_ok d ->
  brs d = r :: rest ->
  readInt64 r = (l, None, r1) -> l <> 0 ->
  decodeFrameSize l = (recBytes, padBytes) ->
  recBytes <= Size r - lastValidOff d - padBytes ->
  decodeRecord_body crcType Unmarshal d rec
  = let '(data, e, r2) := ReadFull r1 (recBytes + padBytes) in
    let d2 := mkDecoder (r2 :: rest) (lastValidOff d) (crc d) in
    match e with
    | Some e =>
      Return d2 rec (Some (if isEOF e then io_ErrUnexpectedEOF else e))
    | None =>
      let '(rec1, ue) := Unmarshal rec (firstn (Z.to_nat recBytes) data) in
      match ue with
      | Some e =>
        Return d2 rec1
               (Some (if isTornEntry d2 data then io_ErrUnexpectedEOF else e))
      | None =>
        let after := lastValidOff d + 8 + recBytes + padBytes in
        if Type_ rec1 =? crcType
        then Return (mkDecoder (r2 :: rest) after (crc d)) rec1 None
        else
          let h := Write (crc d) (Data rec1) in
          if Crc rec1 =? Sum32 h
          then Return (mkDecoder (r2 :: rest) after h) rec1 None
          else
            let d3 := mkDecoder (r2 :: rest) (lastValidOff d) h in
            Return d3 rec1
                   (Some (if isTornEntry d3 data
                          then io_ErrUnexpectedEOF else ErrCRCMismatch))
      end
    end.
Proof.
  intros Hok Hb Hr Hl Hd Hle.
  destruct (sizes_in_range d r rest Hok Hb) as [Hoff Hsz].
  destruct (decodeFrameSize_bounds _ _ _ Hd) as [Hrb Hpb].
  unfold maxSegmentSize in *.
  unfold decodeRecord_body. rewrite Hb, Hr.
  destruct (Z.eqb_spec l 0); [contradiction |].
  rewrite Hd. cbn [lastValidOff crc brs].
  rewrite (int64_small (Size r - lastValidOff d)) by (numerals; lia).
  rewrite (int64_small (Size r - lastValidOff d - padBytes))
    by (numerals; lia).
  destruct (Z.gtb_spec recBytes (Size r - lastValidOff d - padBytes));
    [lia |].
  rewrite (int64_small (recBytes + padBytes)) by (numerals; lia).
  destruct (ReadFull r1 (recBytes + padBytes)) as [[data [e |]] r2];
    [reflexivity |].
  destruct (Unmarshal rec (firstn (Z.to_nat recBytes) data)) as [rec1 [e |]];
    [reflexivity |].
  cbn [lastValidOff crc brs]. unfold frameSizeBytes.
  rewrite (int64_small (8 + recBytes)) by (numerals; lia).
  rewrite (int64_small (8 + recBytes + padBytes)) by (numerals; lia).
  rewrite (int64_small (lastValidOff d + (8 + recBytes + padBytes)))
    by (numerals; lia).
  replace (lastValidOff d + (8 + recBytes + padBytes))
    with (lastValidOff d + 8 + recBytes + padBytes) by lia.
  destruct (Type_ rec1 =? crcType); cbn [negb]; [reflexivity |].
  unfold Validate. now destruct (Crc rec1 =? _).
Qed.

(** *** Every call *)

(** A property of the calls that holds of every activation that
    returns, and of a call whenever it holds of its self-call, holds of
    every call. *)
Lemma decodeRecord_calls (rec : walpb_Record)
      (P : decoder -> result -> Prop) :
  (forall d d' rec' e,
      decodeRecord_body crcType Unmarshal d rec = Return d' rec' e ->
      P d (mkResult d' rec' e)) ->
  (forall d d' res,
      decodeRecord_body crcType Unmarshal d rec = Retry d' ->
      P d' res -> P d res) ->
  forall d, P d (decodeRecord crcType Unmarshal d rec).
Proof.
  intros HR HT d.
  remember (length (brs d)) as n eqn:En.
  revert d En. induction n as [| n IH]; intros d En.
  - destruct (decodeRecord_body crcType Unmarshal d rec) as [d' rec' e | d'] eqn:E.
    + rewrite (decodeRecord_Return _ _ _ _ _ E). now apply HR.
    + apply decodeRecord_body_Retry in E. destruct E as (r & Hb & _).
      rewrite Hb in En. discriminate.
  - destruct (decodeRecord_body crcType Unmarshal d rec) as [d' rec' e | d'] eqn:E.
    + rewrite (decodeRecord_Return _ _ _ _ _ E). now apply HR.
    + rewrite (decodeRecord_Retry _ _ _ E). apply HT with (1 := E).
      apply IH. apply decodeRecord_body_Retry in E.
      destruct E as (r & Hb & _). rewrite Hb in En. now injection En.
Qed.

(** What a successful activation leaves: a control record leaves the
    accumulator alone; any other record has been absorbed and declares
    the sum. *)
Lemma decodeRecord_body_success (d d' : decoder) (rec rec' : walpb_Record) :
  decodeRecord_body crcType Unmarshal d rec = Return d' rec' None ->
  (Type_ rec' = crcType /\ crc d' = crc d)
  \/ (Type_ rec' <> crcType
      /\ crc d' = Write (crc d) (Data rec')
      /\ Crc rec' = Sum32 (Write (crc d) (Data rec'))).
Proof.
  unfold decodeRecord_body.
  destruct (brs d) as [| r rest]; [discriminate |].
  destruct (readInt64 r) as [[l e] r1].
  destruct (match e with Some e0 => isEOF e0 | None => l =? 0 end).
  - destruct rest; discriminate.
  - destruct e; [discriminate |].
    destruct (decodeFrameSize l) as [recBytes padBytes].
    destruct (recBytes >? _); [discriminate |].
    destruct (ReadFull r1 _) as [[data [e |]] r2]; [discriminate |].
    destruct (Unmarshal rec _) as [rec1 [e |]]; [discriminate |].
    destruct (Z.eqb_spec (Type_ rec1) crcType) as [Ht | Ht]; cbn [negb].
    + intros E. injection E as <- <-. now left.
    + unfold Validate. cbn [crc].
      destruct (Z.eqb_spec (Crc rec1) (Sum32 (Write (crc d) (Data rec1))));
        [| discriminate].
      intros E. injection E as <- <-. right. auto.
Qed.

Lemma decodeRecord_success (d : decoder) (rec : walpb_Record) :
  let res := decodeRecord crcType Unmarshal d rec in
  err res = None ->
  (Type_ (out res) = crcType /\ crc (dec res) = crc d)
  \/ (Type_ (out res) <> crcType
      /\ crc (dec res) = Write (crc d) (Data (out res))
      /\ Crc (out res) = Sum32 (Write (crc d) (Data (out res)))).
Proof.
  cbv zeta. revert d.
  apply (decodeRecord_calls rec
           (fun d res =>
              err res = None ->
              (Type_ (out res) = crcType /\ crc (dec res) = crc d)
              \/ (Type_ (out res) <> crcType
                  /\ crc (dec res) = Write (crc d) (Data (out res))
                  /\ Crc (out res) = Sum32 (Write (crc d) (Data (out res)))))).
  - intros d d' rec' e E He. cbn [err] in He. subst e.
    cbn [out dec]. now apply decodeRecord_body_success with (1 := E).
  - intros d d' res E IH He.
    apply decodeRecord_body_Retry in E. destruct E as (r & _ & _ & Hd').
    assert (Hc : crc d' = crc d) by (rewrite Hd'; reflexivity).
    rewrite <- Hc. now apply IH.
Qed.

(** A run of exhausted segments, however long, ends the log. *)
Lemma decodeRecord_all_exhausted (rec : walpb_Record) (h : H) :
  forall (readers : list FileBufReader) (off : Z),
    Forall (fun r => exists l e r1,
                readInt64 r = (l, e, r1)
                /\ (e = Some io_EOF \/ (e = None /\ l = 0)))
           readers ->
    exists off',
      decodeRecord crcType Unmarshal (mkDecoder readers off h) rec
      = mkResult (mkDecoder [] off' h) rec (Some io_EOF).
Proof.
  induction readers as [| r rest IH]; intros off Hall.
  - exists off. apply decodeRecord_Return. now apply decodeRecord_body_nil.
  - inversion Hall as [| ? ? (l & e & r1 & Hr & He) Hrest]; subst.
    pose proof (decodeRecord_body_exhausted
                  (mkDecoder (r :: rest) off h) rec r r1 rest l e
                  eq_refl Hr He) as Hbody.
    destruct rest as [| r2 rest].
    + exists off. now apply decodeRecord_Return.
    + destruct (IH 0 Hrest) as [off' Hnext]. exists off'.
      rewrite (decodeRecord_Retry _ _ _ Hbody). exact Hnext.
Qed.

(** A call made in front of exhausted segments is the call on the first
    segment after them, with the offset reset: what is proved of the
    calls that find a header in the current segment holds of every call
    from there. *)
Lemma decodeRecord_skips (rec : walpb_Record) (h : H) (r : FileBufReader)
      (rest : list FileBufReader) :
  forall (skipped : list FileBufReader) (off : Z),
    skipped <> [] ->
    Forall (fun r => exists l e r1,
                readInt64 r = (l, e, r1)
                /\ (e = Some io_EOF \/ (e = None /\ l = 0)))
           skipped ->
    decodeRecord crcType Unmarshal (mkDecoder (skipped ++ r :: rest) off h) rec
    = decodeRecord crcType Unmarshal (mkDecoder (r :: rest) 0 h) rec.
Proof.
  induction skipped as [| s more IH]; intros off Hne Hall; [congruence |].
  inversion Hall as [| ? ? (l & e & r1 & Hr & He) Hmore]; subst.
  pose proof (decodeRecord_body_exhausted
                (mkDecoder ((s :: more) ++ r :: rest) off h) rec s r1
                (more ++ r :: rest) l e eq_refl Hr He) as Hbody.
  destruct more as [| s' more].
  - cbn [app] in *. now rewrite (decodeRecord_Retry _ _ _ Hbody).
  - cbn [app] in Hbody |- *. rewrite (decodeRecord_Retry _ _ _ Hbody).
    apply (IH 0); [discriminate | exact Hmore].
Qed.

(** *** The invariant of the offsets *)

Lemma decoder_ok_front (d : @decoder H) (r r' : FileBufReader)
      (rest : list FileBufReader) (off : Z) (h : H) :
  decoder_ok d -> brs d = r :: rest -> Size r' = Size r ->
  0 <= off <= maxSegmentSize + 8 ->
  decoder_ok (mkDecoder (r' :: rest) off h).
Proof.
  intros [Hoff Hall] Hb Hs Ho. rewrite Hb in Hall.
  inversion Hall as [| ? ? Hr Hrest]; subst.
  split; [exact Ho |]. cbn [brs]. constructor; [now rewrite Hs | exact Hrest].
Qed.

Lemma decodeRecord_body_ok (d : decoder) (rec : walpb_Record) :
  decoder_ok d ->
  match decodeRecord_body crcType Unmarshal d rec with
  | Return d' _ _ => decoder_ok d'
  | Retry d' => decoder_ok d'
  end.
Proof.
  intros Hok.
  destruct (brs d) as [| r rest] eqn:Hb.
  { now rewrite decodeRecord_body_nil. }
  destruct (sizes_in_range d r rest Hok Hb) as [Hoff Hsz].
  assert (Hrest : Forall (fun r => 0 <= Size r <= maxSegmentSize) rest).
  { destruct Hok as [_ Hall]. rewrite Hb in Hall. now inversion Hall. }
  destruct (readInt64 r) as [[l e] r1] eqn:Hr.
  pose proof (readInt64_Size _ _ _ _ Hr) as Hs1.
  destruct e as [e |].
  - destruct (isEOF e) eqn:He.
    + destruct e; try discriminate He.
      rewrite (decodeRecord_body_exhausted d rec r r1 rest l _ Hb Hr)
        by now left.
      destruct rest; (split; [cbn; unfold maxSegmentSize in *; lia | assumption]).
    + rewrite (decodeRecord_body_read_error d rec r r1 rest l e Hb Hr He).
      now apply decoder_ok_front with (d := d) (r := r).
  - destruct (Z.eq_dec l 0) as [-> | Hl].
    + rewrite (decodeRecord_body_exhausted d rec r r1 rest 0 _ Hb Hr)
        by now right.
      destruct rest; (split; [cbn; unfold maxSegmentSize in *; lia | assumption]).
    + destruct (decodeFrameSize l) as [recBytes padBytes] eqn:Hd.
      destruct (decodeFrameSize_bounds _ _ _ Hd) as [Hrb Hpb].
      destruct (Z_gt_le_dec recBytes (Size r - lastValidOff d - padBytes))
        as [Hgt | Hle].
      * rewrite (decodeRecord_body_limit d rec r r1 rest l _ _ Hok Hb Hr Hl Hd Hgt).
        now apply decoder_ok_front with (d := d) (r := r).
      * rewrite (decodeRecord_body_frame d rec r r1 rest l _ _ Hok Hb Hr Hl Hd Hle).
        destruct (ReadFull r1 (recBytes + padBytes)) as [[data e] r2] eqn:Hf.
        pose proof (ReadFull_Size _ _ _ _ _ Hf) as Hs2.
        assert (Hs : Size r2 = Size r) by congruence.
        assert (Hafter : 0 <= lastValidOff d + 8 + recBytes + padBytes
                         <= maxSegmentSize + 8) by lia.
        destruct e as [e |].
        { now apply decoder_ok_front with (d := d) (r := r). }
        destruct (Unmarshal rec _) as [rec1 [e |]].
        { now apply decoder_ok_front with (d := d) (r := r). }
        cbv zeta.
        destruct (Type_ rec1 =? crcType).
        { now apply decoder_ok_front with (d := d) (r := r). }
        destruct (Crc rec1 =? _); now apply decoder_ok_front with (d := d) (r := r).
Qed.

(** The bytes the classifier is given lie inside the range of the
    offsets: the loop of [isTornEntry] cuts them into the sector chunks
    wherever [decodeRecord] consults it. *)
Lemma payload_in_range (d : @decoder H) (r r1 r2 : FileBufReader)
      (rest : list FileBufReader) (l recBytes padBytes : Z)
      (data : list byte) :
  decoder_ok d ->
  brs d = r :: rest ->
  decodeFrameSize l = (recBytes, padBytes) ->
  recBytes <= Size r - lastValidOff d - padBytes ->
  ReadFull r1 (recBytes + padBytes) = (data, None, r2) ->
  0 <= lastValidOff d
  /\ lastValidOff d + 8 + Z.of_nat (length data) <= maxInt64.
Proof.
  intros Hok Hb Hd Hle Hf.
  destruct (sizes_in_range d r rest Hok Hb) as [Hoff Hsz].
  destruct (decodeFrameSize_bounds _ _ _ Hd) as [Hrb Hpb].
  apply ReadFull_ok in Hf; [| lia]. destruct Hf as (_ & _ & Hlen & _).
  unfold maxSegmentSize in *. numerals. lia.
Qed.

Lemma decodeRecord_ok (d : decoder) (rec : walpb_Record) :
  decoder_ok d -> decoder_ok (dec (decodeRecord crcType Unmarshal d rec)).
Proof.
  revert d.
  apply (decodeRecord_calls rec
           (fun d res => decoder_ok d -> decoder_ok (dec res))).
  - intros d d' rec' e E Hok.
    pose proof (decodeRecord_body_ok d rec Hok) as Hb. now rewrite E in Hb.
  - intros d d' res E IH Hok. apply IH.
    pose proof (decodeRecord_body_ok d rec Hok) as Hb. now rewrite E in Hb.
Qed.

End Calls.

Lemma newDecoder_ok {H : Type} (crc_New : Z -> H) (r : list FileBufReader) :
  Forall (fun r => 0 <= Size r <= maxSegmentSize) r ->
  decoder_ok (newDecoder crc_New r).
Proof.
  intros Hall. split; [cbn; unfold maxSegmentSize; lia | exact Hall].
Qed.

Lemma updateCRC_ok {H : Type} (crc_New : Z -> H) (d : decoder) (prevCrc : Z) :
  decoder_ok d -> decoder_ok (updateCRC crc_New d prevCrc).
Proof. intros [Hoff Hall]. split; assumption. Qed.

(** ** The calls of decodeRecord *)

(** Closes [decoder_ok] on a concrete decoder. *)
Ltac ok_now :=
  split; [cbn; unfold maxSegmentSize; lia
         | repeat constructor; cbn; unfold maxSegmentSize; lia].

(** C2. A header whose recBytes exceeds the size of the current segment
    minus lastValidOff minus padBytes makes the call return the size-limit
    error at once: the reader has given the eight bytes of the header and
    nothing else, lastValidOff and the accumulator are as before, the
    record is untouched, and the error is not the torn-write signal
    io.ErrUnexpectedEOF whatever bytes follow. *)
Theorem decodeRecord_size_limit {H : Type} `{Hash32 H} (crcType : Z)
        (Unmarshal : walpb_Record -> list byte -> walpb_Record * option error)
        (d : decoder) (rec : walpb_Record)
        (r r1 : FileBufReader) (rest : list FileBufReader)
        (l recBytes padBytes : Z) :
  decoder_ok d ->
  brs d = r :: rest ->
  readInt64 r = (l, None, r1) -> l <> 0 ->
  decodeFrameSize l = (recBytes, padBytes) ->
  recBytes > Size r - lastValidOff d - padBytes ->
  let res := decodeRecord crcType Unmarshal d rec in
  err res = Some (ErrMaxEntryLimit recBytes (Size r) (lastValidOff d) padBytes
                                   (Size r - lastValidOff d - padBytes))
  /\ err res <> Some io_ErrUnexpectedEOF
  /\ brs (dec res)
     = mkReader (skipn 8 (unread r)) (closing r) (Size r) :: rest
  /\ lastValidOff (dec res) = lastValidOff d
  /\ crc (dec res) = crc d
  /\ out res = rec.
Proof.
  intros Hok Hb Hr Hl Hd Hgt res. unfold res.
  rewrite (decodeRecord_Return crcType Unmarshal d _ rec _ _
             (decodeRecord_body_limit crcType Unmarshal d rec r r1 rest l
                                      recBytes padBytes Hok Hb Hr Hl Hd Hgt)).
  cbn [err dec out brs lastValidOff crc].
  apply readInt64_ok in Hr. destruct Hr as (_ & _ & ->).
  repeat split. discriminate.
Qed.

Lemma decodeRecord_size_limit_witness :
  let d := Sample.newDecoder [Sample.oversizedSegment] in
  let res := Sample.decodeRecord d Reset in
  err res = Some (ErrMaxEntryLimit 100 16 0 0 16)
  /\ unread (hd Sample.emptySegment (brs (dec res))) = repeat x00 8
  /\ lastValidOff (dec res) = 0
  /\ isTornEntry (dec res) (repeat x00 8) = true.
Proof.
  intros d res.
  destruct (decodeRecord_size_limit
              Sample.crcType Sample.Unmarshal d Reset
              Sample.oversizedSegment
              (mkReader (repeat x00 8) io_EOF 16) [] 100 100 0)
    as (He & _ & Hb & Ho & _).
  - ok_now.
  - reflexivity.
  - reflexivity.
  - lia.
  - reflexivity.
  - cbn. lia.
  - subst res. unfold Sample.decodeRecord. rewrite He, Hb, Ho.
    repeat split.
Defined.

(** C3. A header read that ends cleanly (io.EOF) or gives the value zero
    is no error: with a reader left behind the front one, the front one
    is dropped, lastValidOff is reset to 0 and the call is the call on
    the next segment; with none left, and also with no reader at all,
    the call returns io.EOF and leaves the record alone. *)
Theorem decodeRecord_segment_exhausted {H : Type} `{Hash32 H} (crcType : Z)
        (Unmarshal : walpb_Record -> list byte -> walpb_Record * option error)
        (d : decoder) (rec : walpb_Record) :
  (brs d = [] ->
   decodeRecord crcType Unmarshal d rec = mkResult d rec (Some io_EOF)
   /\ decode crcType Unmarshal d rec = mkResult d Reset (Some io_EOF))
  /\
  (forall (r r1 : FileBufReader) (rest : list FileBufReader)
          (l : Z) (e : option error),
      brs d = r :: rest ->
      readInt64 r = (l, e, r1) ->
      e = Some io_EOF \/ (e = None /\ l = 0) ->
      (rest = [] ->
       decodeRecord crcType Unmarshal d rec
       = mkResult (mkDecoder [] (lastValidOff d) (crc d)) rec (Some io_EOF)
       /\ decode crcType Unmarshal d rec
          = mkResult (mkDecoder [] (lastValidOff d) (crc d)) Reset
                     (Some io_EOF))
      /\
      (rest <> [] ->
       decodeRecord_body crcType Unmarshal d rec
       = Retry (mkDecoder rest 0 (crc d))
       /\ decodeRecord crcType Unmarshal d rec
          = decodeRecord crcType Unmarshal (mkDecoder rest 0 (crc d)) rec)).
Proof.
  assert (Hany : forall rec0,
             brs d = [] ->
             decodeRecord crcType Unmarshal d rec0
             = mkResult d rec0 (Some io_EOF)).
  { intros rec0 Hb. apply decodeRecord_Return.
    now apply decodeRecord_body_nil. }
  split.
  - intros Hb. split; [now apply Hany |]. unfold decode. now apply Hany.
  - intros r r1 rest l e Hb Hr He.
    pose proof (decodeRecord_body_exhausted crcType Unmarshal d rec r r1 rest
                                            l e Hb Hr He) as Hbody.
    split.
    + intros ->. split; [now apply decodeRecord_Return |].
      unfold decode. apply decodeRecord_Return.
      exact (decodeRecord_body_exhausted crcType Unmarshal d Reset r r1 []
                                         l e Hb Hr He).
    + intros Hne. destruct rest as [| r2 rest]; [congruence |].
      split; [exact Hbody |]. now apply decodeRecord_Retry.
Qed.

Lemma decodeRecord_segment_exhausted_witness :
  let tail := mkReader (repeat x00 16) io_EOF 64 in
  let d := mkDecoder [tail; Sample.crcSegment] 48 (Sample.crc_New 0) in
  Sample.decodeRecord d Reset
  = Sample.decodeRecord (mkDecoder [Sample.crcSegment] 0 (Sample.crc_New 0))
                        Reset.
Proof.
  intros tail d.
  destruct (decodeRecord_segment_exhausted
              Sample.crcType Sample.Unmarshal d Reset) as [_ Hx].
  destruct (Hx tail (mkReader (repeat x00 8) io_EOF 64)
               [Sample.crcSegment] 0 None) as [_ Hnext].
  - reflexivity.
  - reflexivity.
  - right. split; reflexivity.
  - apply Hnext. discriminate.
Defined.

(** C9. Every call returns: a self-call is made on a list of readers one
    shorter, so a depth of the number of segments (and of one for the
    empty list) is always enough, whatever the segments hold; and over a
    run of exhausted segments, however long, the call returns io.EOF with
    all of them dropped. *)
Theorem decodeRecord_terminates {H : Type} `{Hash32 H} (crcType : Z)
        (Unmarshal : walpb_Record -> list byte -> walpb_Record * option error)
        (d : decoder) (rec : walpb_Record) :
  (forall d' : decoder,
      decodeRecord_body crcType Unmarshal d rec = Retry d' ->
      S (length (brs d')) = length (brs d))
  /\
  (forall fuel : nat,
      (1 <= fuel)%nat -> (length (brs d) <= fuel)%nat ->
      decodeRecord_fuel crcType Unmarshal fuel d rec
      = Some (decodeRecord crcType Unmarshal d rec))
  /\
  (Forall (fun r => exists l e r1,
               readInt64 r = (l, e, r1)
               /\ (e = Some io_EOF \/ (e = None /\ l = 0)))
          (brs d) ->
   err (decodeRecord crcType Unmarshal d rec) = Some io_EOF
   /\ brs (dec (decodeRecord crcType Unmarshal d rec)) = []).
Proof.
  split; [| split].
  - intros d' E. apply decodeRecord_body_Retry in E.
    destruct E as (r & Hb & _). now rewrite Hb.
  - intros fuel H1 Hlen. now apply decodeRecord_fuel_decodeRecord.
  - intros Hall.
    destruct (decodeRecord_all_exhausted crcType Unmarshal rec (crc d)
                                         (brs d) (lastValidOff d) Hall)
      as [off' Hres].
    replace (mkDecoder (brs d) (lastValidOff d) (crc d)) with d in Hres
      by now destruct d.
    rewrite Hres. auto.
Qed.

Lemma decodeRecord_terminates_witness :
  let d := Sample.newDecoder (repeat Sample.emptySegment 5) in
  decodeRecord_fuel Sample.crcType Sample.Unmarshal 5 d Reset
  = Some (mkResult (mkDecoder [] 0 (Sample.crc_New 0)) Reset (Some io_EOF)).
Proof.
  intros d.
  destruct (decodeRecord_terminates Sample.crcType Sample.Unmarshal d Reset)
    as (_ & Hf & _).
  rewrite (Hf 5%nat).
  - reflexivity.
  - lia.
  - cbn. lia.
Defined.

(** C8. When the segment ends before the recBytes + padBytes bytes of the
    payload are read, the call returns io.ErrUnexpectedEOF: ReadFull
    itself reports io.EOF when it has read no byte and
    io.ErrUnexpectedEOF when it has read some, and the call returns
    io.ErrUnexpectedEOF in both cases; lastValidOff, the accumulator and
    the record are as before. *)
Theorem decodeRecord_short_read {H : Type} `{Hash32 H} (crcType : Z)
        (Unmarshal : walpb_Record -> list byte -> walpb_Record * option error)
        (d : decoder) (rec : walpb_Record)
        (r r1 : FileBufReader) (rest : list FileBufReader)
        (l recBytes padBytes : Z) :
  decoder_ok d ->
  brs d = r :: rest ->
  readInt64 r = (l, None, r1) -> l <> 0 ->
  decodeFrameSize l = (recBytes, padBytes) ->
  recBytes <= Size r - lastValidOff d - padBytes ->
  Z.of_nat (length (unread r1)) < recBytes + padBytes ->
  closing r1 = io_EOF ->
  snd (fst (ReadFull r1 (recBytes + padBytes)))
  = Some (match unread r1 with
          | [] => io_EOF
          | _ :: _ => io_ErrUnexpectedEOF
          end)
  /\ decodeRecord crcType Unmarshal d rec
     = mkResult (mkDecoder (mkReader [] io_EOF (Size r) :: rest)
                           (lastValidOff d) (crc d))
                rec (Some io_ErrUnexpectedEOF).
Proof.
  intros Hok Hb Hr Hl Hd Hle Hshort Hc.
  pose proof (ReadFull_short r1 (recBytes + padBytes) Hshort) as Hf.
  rewrite Hc in Hf. cbn [isEOF] in Hf.
  split; [now rewrite Hf |].
  apply decodeRecord_Return.
  rewrite (decodeRecord_body_frame crcType Unmarshal d rec r r1 rest l
                                   recBytes padBytes Hok Hb Hr Hl Hd Hle).
  rewrite Hf. rewrite (readInt64_Size _ _ _ _ Hr).
  now destruct (unread r1).
Qed.

Lemma decodeRecord_short_read_witness :
  err (Sample.decodeRecord (Sample.newDecoder [Sample.headerOnlySegment]) Reset)
  = Some io_ErrUnexpectedEOF
  /\ err (Sample.decodeRecord (Sample.newDecoder [Sample.cutSegment]) Reset)
     = Some io_ErrUnexpectedEOF.
Proof.
  split.
  - destruct (decodeRecord_short_read
                Sample.crcType Sample.Unmarshal
                (Sample.newDecoder [Sample.headerOnlySegment]) Reset
                Sample.headerOnlySegment (mkReader [] io_EOF 16) []
                (encodeFrameHeader 4 4) 4 4) as [_ Hr].
    + ok_now.
    + reflexivity.
    + reflexivity.
    + discriminate.
    + reflexivity.
    + cbn. lia.
    + cbn. lia.
    + reflexivity.
    + unfold Sample.decodeRecord. now rewrite Hr.
  - destruct (decodeRecord_short_read
                Sample.crcType Sample.Unmarshal
                (Sample.newDecoder [Sample.cutSegment]) Reset
                Sample.cutSegment (mkReader [x08; x04; x10] io_EOF 16) []
                (encodeFrameHeader 4 4) 4 4) as [_ Hr].
    + ok_now.
    + reflexivity.
    + reflexivity.
    + discriminate.
    + reflexivity.
    + cbn. lia.
    + cbn. lia.
    + reflexivity.
    + unfold Sample.decodeRecord. now rewrite Hr.
Defined.

(** C4. A record that has been unmarshalled: if its type is crcType, the
    accumulator is left alone and nothing is validated, so the call
    succeeds whatever checksum the record declares; otherwise the
    record's Data is written into the accumulator and the call succeeds
    exactly when the declared checksum is the accumulated sum, and on a
    mismatch it returns io.ErrUnexpectedEOF if the detector says torn and
    the mismatch error if not. *)
Theorem decodeRecord_checksum {H : Type} `{Hash32 H} (crcType : Z)
        (Unmarshal : walpb_Record -> list byte -> walpb_Record * option error)
        (d : decoder) (rec rec1 : walpb_Record)
        (r r1 r2 : FileBufReader) (rest : list FileBufReader)
        (l recBytes padBytes : Z) (data : list byte) :
  decoder_ok d ->
  brs d = r :: rest ->
  readInt64 r = (l, None, r1) -> l <> 0 ->
  decodeFrameSize l = (recBytes, padBytes) ->
  recBytes <= Size r - lastValidOff d - padBytes ->
  ReadFull r1 (recBytes + padBytes) = (data, None, r2) ->
  Unmarshal rec (firstn (Z.to_nat recBytes) data) = (rec1, None) ->
  let res := decodeRecord crcType Unmarshal d rec in
  let h := Write (crc d) (Data rec1) in
  (Type_ rec1 = crcType ->
   err res = None /\ out res = rec1 /\ crc (dec res) = crc d)
  /\ (Type_ rec1 <> crcType ->
      crc (dec res) = h
      /\ (err res = None <-> Crc rec1 = Sum32 h)
      /\ (err res = None -> out res = rec1)
      /\ (Crc rec1 <> Sum32 h ->
          err res = Some (if isTornEntry (dec res) data
                          then io_ErrUnexpectedEOF else ErrCRCMismatch))).
Proof.
  intros Hok Hb Hr Hl Hd Hle Hf Hu res h. unfold res.
  pose proof (decodeRecord_body_frame crcType Unmarshal d rec r r1 rest l
                                      recBytes padBytes Hok Hb Hr Hl Hd Hle)
    as Hbody.
  rewrite Hf, Hu in Hbody. cbv zeta in Hbody. fold h in Hbody.
  destruct (Z.eqb_spec (Type_ rec1) crcType) as [Ht | Ht].
  - rewrite (decodeRecord_Return _ _ _ _ _ _ _ Hbody). cbn.
    split; [auto | contradiction].
  - destruct (Z.eqb_spec (Crc rec1) (Sum32 h)) as [Hc | Hc];
      rewrite (decodeRecord_Return _ _ _ _ _ _ _ Hbody); cbn.
    + split; [contradiction |]. intros _.
      split; [reflexivity |]. split; [tauto |].
      split; [reflexivity | contradiction].
    + split; [contradiction |]. intros _.
      split; [reflexivity |]. split; [| split; [discriminate | reflexivity]].
      split; [discriminate | contradiction].
Qed.

Lemma decodeRecord_checksum_witness :
  let res := Sample.decodeRecord (Sample.newDecoder [Sample.badCrcSegment])
                                 Reset in
  crc (dec res) = Sample.crc32_Update 0 [x61; x62]
  /\ err res = Some ErrCRCMismatch.
Proof.
  intros res.
  destruct (decodeRecord_checksum
              Sample.crcType Sample.Unmarshal
              (Sample.newDecoder [Sample.badCrcSegment]) Reset
              Sample.badRecord
              Sample.badCrcSegment
              (mkReader (skipn 8 (Sample.encode Sample.badRecord)) io_EOF 24)
              (mkReader [] io_EOF 24) []
              (encodeFrameHeader 9 7) 9 7
              (skipn 8 (Sample.encode Sample.badRecord)))
    as (_ & Hn).
  - ok_now.
  - reflexivity.
  - reflexivity.
  - discriminate.
  - reflexivity.
  - cbn. lia.
  - reflexivity.
  - reflexivity.
  - destruct Hn as (Hc & _ & _ & He); [discriminate |].
    subst res. unfold Sample.decodeRecord.
    split; [exact Hc |].
    rewrite He; [reflexivity | vm_compute; discriminate].
Defined.

(** C10. The accumulator after a call that fails while it reads a frame:
    a size-limit error, a failed read of the payload and a failed
    unmarshal leave it as it was; a failed checksum validation of a
    record that is not a control record leaves it with the Data of the
    rejected record absorbed, and lastCRC reports that sum. *)
Theorem decodeRecord_accumulator_on_error {H : Type} `{Hash32 H} (crcType : Z)
        (Unmarshal : walpb_Record -> list byte -> walpb_Record * option error)
        (d : decoder) (rec : walpb_Record)
        (r r1 : FileBufReader) (rest : list FileBufReader)
        (l recBytes padBytes : Z) :
  decoder_ok d ->
  brs d = r :: rest ->
  readInt64 r = (l, None, r1) -> l <> 0 ->
  decodeFrameSize l = (recBytes, padBytes) ->
  let res := decodeRecord crcType Unmarshal d rec in
  (recBytes > Size r - lastValidOff d - padBytes ->
   err res <> None /\ crc (dec res) = crc d)
  /\
  (recBytes <= Size r - lastValidOff d - padBytes ->
   forall (data : list byte) (r2 : FileBufReader),
     (forall e, ReadFull r1 (recBytes + padBytes) = (data, Some e, r2) ->
                err res <> None /\ crc (dec res) = crc d)
     /\
     (ReadFull r1 (recBytes + padBytes) = (data, None, r2) ->
      forall rec1 : walpb_Record,
        (forall e,
            Unmarshal rec (firstn (Z.to_nat recBytes) data) = (rec1, Some e) ->
            err res <> None /\ crc (dec res) = crc d)
        /\
        (Unmarshal rec (firstn (Z.to_nat recBytes) data) = (rec1, None) ->
         Type_ rec1 <> crcType ->
         Validate rec1 (Sum32 (Write (crc d) (Data rec1))) <> None ->
         err res <> None
         /\ crc (dec res) = Write (crc d) (Data rec1)
         /\ lastCRC (dec res) = Sum32 (Write (crc d) (Data rec1))))).
Proof.
  intros Hok Hb Hr Hl Hd res. unfold res. split.
  - intros Hgt.
    rewrite (decodeRecord_Return crcType Unmarshal d _ rec _ _
               (decodeRecord_body_limit crcType Unmarshal d rec r r1 rest l
                                        recBytes padBytes Hok Hb Hr Hl Hd Hgt)).
    cbn. split; [discriminate | reflexivity].
  - intros Hle data r2.
    pose proof (decodeRecord_body_frame crcType Unmarshal d rec r r1 rest l
                                        recBytes padBytes Hok Hb Hr Hl Hd Hle)
      as Hbody.
    split.
    + intros e Hf. rewrite Hf in Hbody.
      rewrite (decodeRecord_Return _ _ _ _ _ _ _ Hbody). cbn.
      split; [discriminate | reflexivity].
    + intros Hf rec1. rewrite Hf in Hbody. split.
      * intros e Hu. rewrite Hu in Hbody.
        rewrite (decodeRecord_Return _ _ _ _ _ _ _ Hbody). cbn.
        split; [discriminate | reflexivity].
      * intros Hu Ht Hc. rewrite Hu in Hbody. cbv zeta in Hbody.
        destruct (Z.eqb_spec (Type_ rec1) crcType); [contradiction |].
        unfold Validate in Hc.
        destruct (Crc rec1 =? Sum32 (Write (crc d) (Data rec1)));
          [contradiction |].
        rewrite (decodeRecord_Return _ _ _ _ _ _ _ Hbody).
        unfold lastCRC. cbn. split; [discriminate | auto].
Qed.

Lemma decodeRecord_accumulator_on_error_witness :
  let d := Sample.newDecoder [Sample.badCrcSegment] in
  let res := Sample.decodeRecord d Reset in
  lastCRC d = 0
  /\ err res = Some ErrCRCMismatch
  /\ lastCRC (dec res) = Sample.crc32_Update 0 [x61; x62].
Proof.
  intros d res.
  destruct (decodeRecord_accumulator_on_error
              Sample.crcType Sample.Unmarshal d Reset
              Sample.badCrcSegment
              (mkReader (skipn 8 (Sample.encode Sample.badRecord)) io_EOF 24)
              [] (encodeFrameHeader 9 7) 9 7)
    as [_ Hframe].
  - ok_now.
  - reflexivity.
  - reflexivity.
  - discriminate.
  - reflexivity.
  - destruct (Hframe ltac:(cbn; lia)
                     (skipn 8 (Sample.encode Sample.badRecord))
                     (mkReader [] io_EOF 24)) as [_ Hread].
    destruct (Hread eq_refl Sample.badRecord) as [_ Hsum].
    destruct Hsum as (_ & _ & Hlast).
    + reflexivity.
    + discriminate.
    + vm_compute. discriminate.
    + subst res. unfold Sample.decodeRecord.
      split; [reflexivity |]. split; [reflexivity | exact Hlast].
Defined.

(** The offset after a call that finds a header in the current
    segment. *)
Lemma decodeRecord_offset_in_segment {H : Type} `{Hash32 H} (crcType : Z)
      (Unmarshal : walpb_Record -> list byte -> walpb_Record * option error)
      (d : decoder) (rec : walpb_Record)
      (r r1 : FileBufReader) (rest : list FileBufReader) (l : Z) :
  decoder_ok d ->
  brs d = r :: rest ->
  readInt64 r = (l, None, r1) -> l <> 0 ->
  let res := decodeRecord crcType Unmarshal d rec in
  (err res = None ->
   lastValidOff (dec res)
   = lastValidOff d + 8 + fst (decodeFrameSize l) + snd (decodeFrameSize l))
  /\ (err res <> None -> lastValidOff (dec res) = lastValidOff d).
Proof.
  intros Hok Hb Hr Hl res. unfold res.
  destruct (decodeFrameSize l) as [recBytes padBytes] eqn:Hd. cbn [fst snd].
  destruct (Z_gt_le_dec recBytes (Size r - lastValidOff d - padBytes))
    as [Hgt | Hle].
  - rewrite (decodeRecord_Return crcType Unmarshal d _ rec _ _
               (decodeRecord_body_limit crcType Unmarshal d rec r r1 rest l
                                        recBytes padBytes Hok Hb Hr Hl Hd Hgt)).
    cbn. split; [discriminate | reflexivity].
  - pose proof (decodeRecord_body_frame crcType Unmarshal d rec r r1 rest l
                                        recBytes padBytes Hok Hb Hr Hl Hd Hle)
      as Hbody.
    destruct (ReadFull r1 (recBytes + padBytes)) as [[data [e |]] r2].
    { rewrite (decodeRecord_Return _ _ _ _ _ _ _ Hbody). cbn.
      split; [discriminate | reflexivity]. }
    destruct (Unmarshal rec _) as [rec1 [e |]].
    { rewrite (decodeRecord_Return _ _ _ _ _ _ _ Hbody). cbn.
      split; [discriminate | reflexivity]. }
    cbv zeta in Hbody.
    destruct (Type_ rec1 =? crcType).
    { rewrite (decodeRecord_Return _ _ _ _ _ _ _ Hbody). cbn.
      split; [reflexivity | congruence]. }
    destruct (Crc rec1 =? _);
      rewrite (decodeRecord_Return _ _ _ _ _ _ _ Hbody); cbn.
    + split; [reflexivity | congruence].
    + split; [discriminate | reflexivity].
Qed.

(** C6. A call that finds a header in the segment that is current when
    it is made moves lastValidOff forward by exactly
    8 + recBytes + padBytes of that frame when it succeeds and leaves it
    where it was when it returns an error (size limit, failed read,
    failed unmarshal, checksum mismatch, or a failed read of the header
    itself); a call that finds the current segment exhausted is the call
    on the next segment with lastValidOff reset to 0, so that when it
    decodes the first frame of that segment lastOffset is
    8 + recBytes + padBytes, counted from the start of the segment the
    record was read from. *)
Theorem decodeRecord_lastOffset {H : Type} `{Hash32 H} (crcType : Z)
        (Unmarshal : walpb_Record -> list byte -> walpb_Record * option error)
        (d : decoder) (rec : walpb_Record)
        (r r1 : FileBufReader) (rest : list FileBufReader)
        (l : Z) (e : option error) :
  decoder_ok d ->
  brs d = r :: rest ->
  readInt64 r = (l, e, r1) ->
  let res := decodeRecord crcType Unmarshal d rec in
  (e = None -> l <> 0 ->
   (err res = None ->
    lastOffset (dec res)
    = lastValidOff d + 8 + fst (decodeFrameSize l) + snd (decodeFrameSize l))
   /\ (err res <> None -> lastOffset (dec res) = lastValidOff d))
  /\
  (forall e', e = Some e' -> isEOF e' = false ->
              err res = Some e' /\ lastOffset (dec res) = lastValidOff d)
  /\
  (e = Some io_EOF \/ (e = None /\ l = 0) -> rest <> [] ->
   res = decodeRecord crcType Unmarshal (mkDecoder rest 0 (crc d)) rec
   /\ forall (r2 r3 : FileBufReader) (rest2 : list FileBufReader) (l2 : Z),
       rest = r2 :: rest2 ->
       readInt64 r2 = (l2, None, r3) -> l2 <> 0 ->
       (err res = None ->
        lastOffset (dec res)
        = 8 + fst (decodeFrameSize l2) + snd (decodeFrameSize l2))
       /\ (err res <> None -> lastOffset (dec res) = 0)).
Proof.
  intros Hok Hb Hr res. unfold res, lastOffset. split; [| split].
  - intros -> Hl.
    exact (decodeRecord_offset_in_segment crcType Unmarshal d rec r r1 rest l
                                          Hok Hb Hr Hl).
  - intros e' -> He.
    rewrite (decodeRecord_Return crcType Unmarshal d _ rec _ _
               (decodeRecord_body_read_error crcType Unmarshal d rec r r1 rest
                                             l e' Hb Hr He)).
    cbn. auto.
  - intros He Hne.
    pose proof (decodeRecord_body_exhausted crcType Unmarshal d rec r r1 rest
                                            l e Hb Hr He) as Hbody.
    destruct rest as [| r2' rest2']; [congruence |].
    rewrite (decodeRecord_Retry _ _ _ _ _ Hbody).
    split; [reflexivity |].
    intros r2 r3 rest2 l2 Hrest Hr2 Hl2.
    assert (Hok' : decoder_ok (mkDecoder (r2' :: rest2') 0 (crc d))).
    { destruct Hok as [_ Hall]. rewrite Hb in Hall.
      split; [cbn; unfold maxSegmentSize; lia | now inversion Hall]. }
    exact (decodeRecord_offset_in_segment
             crcType Unmarshal (mkDecoder (r2' :: rest2') 0 (crc d)) rec
             r2 r3 rest2 l2 Hok' Hrest Hr2 Hl2).
Qed.

Lemma decodeRecord_lastOffset_witness :
  lastOffset (dec (Sample.decodeRecord (Sample.newDecoder [Sample.crcSegment])
                                       Reset)) = 16
  /\ lastOffset (dec (Sample.decodeRecord
                        (Sample.newDecoder [Sample.badCrcSegment]) Reset)) = 0.
Proof.
  split.
  - destruct (decodeRecord_lastOffset
                Sample.crcType Sample.Unmarshal
                (Sample.newDecoder [Sample.crcSegment]) Reset
                Sample.crcSegment
                (mkReader (skipn 8 (Sample.frame Sample.crcRecord 4)) io_EOF 16)
                [] (encodeFrameHeader 4 4) None) as [Hin _].
    + ok_now.
    + reflexivity.
    + reflexivity.
    + destruct Hin as [Hs _]; [reflexivity | discriminate |].
      unfold Sample.decodeRecord. rewrite Hs; reflexivity.
  - destruct (decodeRecord_lastOffset
                Sample.crcType Sample.Unmarshal
                (Sample.newDecoder [Sample.badCrcSegment]) Reset
                Sample.badCrcSegment
                (mkReader (skipn 8 (Sample.encode Sample.badRecord)) io_EOF 24)
                [] (encodeFrameHeader 9 7) None) as [Hin _].
    + ok_now.
    + reflexivity.
    + reflexivity.
    + destruct Hin as [_ Hs]; [reflexivity | discriminate |].
      unfold Sample.decodeRecord.
      rewrite Hs; [reflexivity | vm_compute; discriminate].
Defined.

(** C6. lastValidOff does not move forward on every successful call: a
    call that crosses into the next segment counts from its start.  After
    two records of the first segment lastOffset is 32; the third
    call finds the rest of the segment unwritten, moves on and decodes
    the frame of the second segment (recBytes 4, padBytes 4) with
    success, and lastOffset is then 16, not 32 + 8 + 4 + 4. *)
Lemma lastOffset_restarts_in_next_segment :
  let d0 := Sample.newDecoder [Sample.fullSegment; Sample.crcSegment] in
  let call1 := Sample.decode d0 Reset in
  let call2 := Sample.decode (dec call1) Reset in
  let call3 := Sample.decode (dec call2) Reset in
  err call1 = None /\ err call2 = None
  /\ lastOffset (dec call2) = 32
  /\ err call3 = None
  /\ out call3 = mkRecord 4 0 []
  /\ decodeFrameSize (int64 (le_uint64 (firstn 8 (unread Sample.crcSegment))))
     = (4, 4)
  /\ lastOffset (dec call3) = 16
  /\ lastOffset (dec call3) <> lastOffset (dec call2) + 8 + 4 + 4.
Proof.
  vm_compute. repeat split; discriminate.
Qed.

(** ** The checksum chain over a run of calls *)

(** A replay that decodes no control record has validated
    every record against the chain that starts from the accumulator the
    run began with. *)
Lemma replay_chained {H : Type} `{Hash32 H} (crc_New : Z -> H) (crcType : Z)
      (Unmarshal : walpb_Record -> list byte -> walpb_Record * option error) :
  forall (n : nat) (d d' : decoder) (recs : list walpb_Record),
    replay crc_New crcType Unmarshal n d = (d', recs, None) ->
    Forall (fun r => Type_ r <> crcType) recs ->
    length recs = n
    /\ chained (crc d) recs
    /\ crc d' = absorbed (crc d) recs.
Proof.
  induction n as [| n IH]; intros d d' recs E Hall.
  - cbn in E. injection E as <- <-. cbn. auto.
  - cbn [replay] in E.
    destruct (err (decode crcType Unmarshal d Reset)) as [e |] eqn:He.
    { discriminate E. }
    destruct (replay crc_New crcType Unmarshal n _) as [[d1 recs1] e1] eqn:En.
    injection E as <- <- ->.
    inversion Hall as [| ? ? Hr Hrest]; subst.
    destruct (Z.eqb_spec (Type_ (out (decode crcType Unmarshal d Reset)))
                         crcType) as [Ht | Ht]; [contradiction |].
    destruct (IH _ _ _ En Hrest) as (Hlen & Hch & Hcrc).
    pose proof (decodeRecord_success crcType Unmarshal d Reset) as Hs.
    cbv zeta in Hs. unfold decode in *.
    destruct (Hs He) as [[Ht' _] | (_ & Hw & Hsum)]; [contradiction |].
    rewrite Hw in Hch, Hcrc.
    cbn [length chained absorbed fold_left]. auto.
Qed.

(** C7. The reseed replaces the accumulator by a fresh one started from
    the given value and touches nothing else; and in a replay of the log
    a control record followed by N other records has all N validated
    against the chain seeded by the checksum the control record declares,
    not by the accumulator the decoder had before: each of them declares
    the sum of the reseeded accumulator after its own data and the data
    of those before it, and lastCRC ends at the sum over all of them. *)
Theorem updateCRC_reseeds_chain {H : Type} `{Hash32 H} (crc_New : Z -> H)
        (crcType : Z)
        (Unmarshal : walpb_Record -> list byte -> walpb_Record * option error)
        (d : decoder) :
  (forall prevCrc : Z,
      crc (updateCRC crc_New d prevCrc) = crc_New prevCrc
      /\ brs (updateCRC crc_New d prevCrc) = brs d
      /\ lastValidOff (updateCRC crc_New d prevCrc) = lastValidOff d)
  /\
  (forall (n : nat) (d' : decoder) (control : walpb_Record)
          (recs : list walpb_Record),
      replay crc_New crcType Unmarshal (S n) d = (d', control :: recs, None) ->
      Type_ control = crcType ->
      Forall (fun r => Type_ r <> crcType) recs ->
      length recs = n
      /\ chained (crc_New (Crc control)) recs
      /\ lastCRC d' = Sum32 (absorbed (crc_New (Crc control)) recs)).
Proof.
  split.
  - intros prevCrc. repeat split.
  - intros n d' control recs E Ht Hall.
    cbn [replay] in E.
    destruct (err (decode crcType Unmarshal d Reset)) as [e |] eqn:He.
    { discriminate E. }
    destruct (replay crc_New crcType Unmarshal n _) as [[d1 recs1] e1] eqn:En.
    injection E as Hd Hc Hrecs He1. subst d1 recs1 e1. rewrite Hc in En.
    destruct (Z.eqb_spec (Type_ control) crcType); [| contradiction].
    destruct (replay_chained crc_New crcType Unmarshal n _ d' recs En Hall)
      as (Hlen & Hch & Hcrc).
    cbn [updateCRC crc] in Hch, Hcrc.
    unfold lastCRC. rewrite Hcrc. auto.
Qed.

Lemma updateCRC_reseeds_chain_witness :
  let d := Sample.newDecoder [Sample.chainSegment] in
  chained (Sample.crc_New 7) [Sample.entry1; Sample.entry2]
  /\ lastCRC (fst (fst (Sample.replay 3 d)))
     = Sum32 (absorbed (Sample.crc_New 7) [Sample.entry1; Sample.entry2]).
Proof.
  intros d.
  destruct (updateCRC_reseeds_chain Sample.crc_New Sample.crcType
                                    Sample.Unmarshal d) as [_ Hrun].
  destruct (Hrun 2%nat (fst (fst (Sample.replay 3 d)))
                 Sample.seedRecord [Sample.entry1; Sample.entry2])
    as (_ & Hch & Hlast).
  - vm_compute. reflexivity.
  - reflexivity.
  - repeat constructor; discriminate.
  - split; [exact Hch | exact Hlast].
Defined.

(** The decoder does not reseed by itself: the reseed is the caller's
    step.  Without it the records after the control record are checked
    against the chain the decoder was created with, and the first of
    them is rejected. *)
Example decode_without_reseed :
  let d := Sample.newDecoder [Sample.chainSegment] in
  let control := Sample.decode d Reset in
  err control = None
  /\ out control = Sample.seedRecord
  /\ err (Sample.decode (dec control) Reset) = Some ErrCRCMismatch.
Proof. vm_compute. repeat split. Qed.

(** * Further properties of the decoder *)

(** ** Little-endian headers *)

Lemma byteOf_value (x : Z) : Z.of_N (Byte.to_N (byteOf x)) = x mod 256.
Proof.
  unfold byteOf.
  pose proof (Z.mod_pos_bound x 256 ltac:(lia)) as Hm.
  destruct (Byte.of_N (Z.to_N (x mod 256))) as [b |] eqn:E.
  - apply Byte.to_of_N in E. rewrite E. lia.
  - apply Byte.of_N_None_iff in E. lia.
Qed.

Lemma putUint_length (n : nat) : forall u, length (putUint n u) = n.
Proof. induction n as [| n IH]; intros u; cbn; [| rewrite IH]; reflexivity. Qed.

Lemma le_uint64_putUint (n : nat) :
  forall u, le_uint64 (putUint n u) = u mod 256 ^ Z.of_nat n.
Proof.
  induction n as [| n IH]; intros u.
  - cbn. now rewrite Z.mod_1_r.
  - cbn [putUint le_uint64]. rewrite IH, byteOf_value.
    rewrite Nat2Z.inj_succ, Z.pow_succ_r by lia.
    rewrite Z.rem_mul_r by lia. reflexivity.
Qed.

Lemma int64_uint64 (x : Z) : int64_range x -> int64 (uint64 x) = x.
Proof.
  intros Hx. unfold uint64, int64.
  rewrite Z.mod_mod by (unfold two64; lia).
  fold (int64 x). now apply int64_small.
Qed.

(** X1. readInt64 reads back a little-endian header: on a reader that
    starts with the eight bytes of an int64, lowest byte first, it gives
    that value without an error and leaves the reader right after
    them. *)
Theorem readInt64_putUint64 (v : Z) (bs : list byte) (c : error) (s : Z) :
  int64_range v ->
  readInt64 (mkReader (putUint64 (uint64 v) ++ bs) c s)
  = (v, None, mkReader bs c s).
Proof.
  intros Hv. unfold readInt64, ReadFull. cbn [unread closing Size].
  rewrite length_app. unfold putUint64 at 1. rewrite putUint_length.
  destruct (Z.leb_spec 8 (Z.of_nat (8 + length bs))); [| lia].
  change (Z.to_nat 8) with (length (putUint64 (uint64 v))) at 1.
  rewrite firstn_app, Nat.sub_diag, firstn_all, firstn_O, app_nil_r.
  change (Z.to_nat 8) with (length (putUint64 (uint64 v))).
  rewrite skipn_app, Nat.sub_diag, skipn_all, skipn_O. cbn [app].
  unfold putUint64. rewrite le_uint64_putUint.
  change (256 ^ Z.of_nat 8) with two64.
  unfold uint64 at 1. rewrite Z.mod_mod by (unfold two64; lia).
  fold (uint64 v). now rewrite int64_uint64.
Qed.

Lemma readInt64_putUint64_witness :
  int64_range (-8935141660703064060)
  /\ readInt64 (mkReader (putUint64 (uint64 (-8935141660703064060))
                          ++ [x08; x04]) io_EOF 16)
     = (-8935141660703064060, None, mkReader [x08; x04] io_EOF 16).
Proof.
  assert (Hr : int64_range (-8935141660703064060))
    by (unfold int64_range, minInt64, maxInt64; lia).
  split; [exact Hr |]. now apply readInt64_putUint64.
Defined.

(** ** What the classifier cuts *)

Lemma slice_piece (data : list byte) (lo n : Z) :
  0 <= lo -> 1 <= n -> lo + n <= Z.of_nat (length data) ->
  slice data lo (lo + n) <> []
  /\ forall b, In b (slice data lo (lo + n)) -> In b data.
Proof.
  intros Hlo Hn Hhi. unfold slice.
  replace (lo + n - lo) with n by lia. split.
  - intros E. apply (f_equal (@length byte)) in E.
    rewrite length_firstn, length_skipn in E. cbn in E. lia.
  - intros b Hb.
    rewrite <- (firstn_skipn (Z.to_nat lo) data). apply in_or_app. right.
    rewrite <- (firstn_skipn (Z.to_nat n) (skipn (Z.to_nat lo) data)).
    apply in_or_app. now left.
Qed.

(** Every chunk the loop adds is a piece of the data with at least one
    byte, and the chunks it starts with stay. *)
Lemma splitSectors_pieces :
  forall (fuel : nat) (data : list byte) (fileOff curOff : Z)
         (chunks : list (list byte)) (sect : list byte),
    0 <= curOff ->
    In sect (splitSectors fuel data fileOff curOff chunks) ->
    In sect chunks
    \/ (sect <> [] /\ forall b, In b sect -> In b data).
Proof.
  induction fuel as [| fuel IH]; intros data fileOff curOff chunks sect Hc Hin.
  - cbn [splitSectors] in Hin.
    destruct (curOff <? Z.of_nat (length data)); now left.
  - cbn [splitSectors] in Hin.
    destruct (Z.ltb_spec curOff (Z.of_nat (length data))); [| now left].
    assert (Hrem : -512 < Z.rem fileOff 512 < 512).
    { pose proof (Z.rem_bound_pos fileOff 512).
      pose proof (Z.rem_bound_pos_neg fileOff 512).
      destruct (Z_lt_le_dec fileOff 0); lia. }
    unfold minSectorSize in Hin.
    rewrite (int64_small (512 - Z.rem fileOff 512)) in Hin by (numerals; lia).
    set (c := if 512 - Z.rem fileOff 512 >? Z.of_nat (length data) - curOff
              then Z.of_nat (length data) - curOff
              else 512 - Z.rem fileOff 512) in *.
    assert (Hcl : 1 <= c /\ curOff + c <= Z.of_nat (length data)).
    { unfold c.
      destruct (Z.gtb_spec (512 - Z.rem fileOff 512)
                           (Z.of_nat (length data) - curOff)); lia. }
    apply IH in Hin; [| lia].
    destruct Hin as [Hin | Hin]; [| now right].
    apply in_app_or in Hin. destruct Hin as [Hin | [<- | []]]; [now left |].
    right. apply slice_piece; lia.
Qed.

Lemma splitSectors_keeps :
  forall (fuel : nat) (data : list byte) (fileOff curOff : Z)
         (chunks : list (list byte)) (sect : list byte),
    In sect chunks ->
    In sect (splitSectors fuel data fileOff curOff chunks).
Proof.
  induction fuel as [| fuel IH]; intros data fileOff curOff chunks sect Hin;
    cbn [splitSectors];
    destruct (curOff <? Z.of_nat (length data)); try assumption.
  apply IH. apply in_or_app. now left.
Qed.

(** Data that are not empty give at least one chunk. *)
Lemma splitSectors_first_piece (data : list byte) (fileOff : Z) :
  data <> [] ->
  exists sect,
    In sect (splitSectors (length data) data fileOff 0 [])
    /\ sect <> [] /\ forall b, In b sect -> In b data.
Proof.
  intros Hne.
  destruct (length data) as [| n] eqn:El.
  { destruct data; [congruence | discriminate]. }
  cbn [splitSectors]. rewrite El.
  destruct (Z.ltb_spec 0 (Z.of_nat (S n))); [| lia].
  assert (Hrem : -512 < Z.rem fileOff 512 < 512).
  { pose proof (Z.rem_bound_pos fileOff 512).
    pose proof (Z.rem_bound_pos_neg fileOff 512).
    destruct (Z_lt_le_dec fileOff 0); lia. }
  unfold minSectorSize.
  rewrite (int64_small (512 - Z.rem fileOff 512)) by (numerals; lia).
  set (c := if 512 - Z.rem fileOff 512 >? Z.of_nat (S n) - 0
            then Z.of_nat (S n) - 0
            else 512 - Z.rem fileOff 512).
  assert (Hcl : 1 <= c /\ 0 + c <= Z.of_nat (length data)).
  { rewrite El. unfold c.
    destruct (Z.gtb_spec (512 - Z.rem fileOff 512) (Z.of_nat (S n) - 0)); lia. }
  exists (slice data 0 (0 + c)). split.
  - apply splitSectors_keeps. cbn [app]. now left.
  - apply slice_piece; lia.
Qed.

(** No chunk of data without a zero byte is all zero, wherever the cuts
    fall. *)
Lemma anyZeroSector_no_zero_byte (data : list byte) (fileOff : Z) :
  ~ In x00 data ->
  anyZeroSector (splitSectors (length data) data fileOff 0 []) = false.
Proof.
  intros Hnz.
  destruct (anyZeroSector _) eqn:E; [| reflexivity].
  apply anyZeroSector_exists in E. destruct E as (sect & Hin & Hz).
  apply splitSectors_pieces in Hin; [| lia].
  destruct Hin as [[] | [Hne Hsub]].
  destruct sect as [| b sect]; [congruence |].
  inversion Hz as [| ? ? Hb _]; subst.
  exfalso. apply Hnz, Hsub. now left.
Qed.

(** Data of zero bytes only, and at least one of them, have an all-zero
    chunk, wherever the cuts fall. *)
Lemma anyZeroSector_all_zero (data : list byte) (fileOff : Z) :
  data <> [] -> Forall (fun v => v = x00) data ->
  anyZeroSector (splitSectors (length data) data fileOff 0 []) = true.
Proof.
  intros Hne Hz.
  apply anyZeroSector_exists.
  destruct (splitSectors_first_piece data fileOff Hne)
    as (sect & Hin & _ & Hsub).
  exists sect. split; [exact Hin |].
  apply Forall_forall. intros b Hb.
  rewrite Forall_forall in Hz. apply Hz, Hsub, Hb.
Qed.

(** X2. Data with no zero byte are never classified as torn, whatever
    the readers and the offset: the bytes of every chunk are bytes of the
    data. *)
Theorem isTornEntry_no_zero_byte {H : Type} (d : @decoder H)
        (data : list byte) :
  ~ In x00 data -> isTornEntry d data = false.
Proof.
  intros Hnz. unfold isTornEntry.
  destruct (negb (length (brs d) =? 1)%nat); [reflexivity |].
  now apply anyZeroSector_no_zero_byte.
Qed.

Lemma isTornEntry_no_zero_byte_witness :
  ~ In x00 [x08; x02; x10; x01]
  /\ isTornEntry (mkDecoder [Sample.emptySegment] 0 (Sample.crc_New 0))
                 [x08; x02; x10; x01] = false.
Proof.
  assert (Hnz : ~ In x00 [x08; x02; x10; x01]).
  { cbn. intros [E | [E | [E | [E | []]]]]; discriminate E. }
  split; [exact Hnz |]. now apply isTornEntry_no_zero_byte.
Defined.

(** X3. Data of zero bytes only, and at least one of them, are
    classified as torn exactly when one reader remains, whatever the
    offset. *)
Theorem isTornEntry_all_zero {H : Type} (d : @decoder H)
        (data : list byte) :
  data <> [] -> Forall (fun v => v = x00) data ->
  isTornEntry d data = (length (brs d) =? 1)%nat.
Proof.
  intros Hne Hz. unfold isTornEntry.
  destruct (length (brs d) =? 1)%nat; cbn [negb]; [| reflexivity].
  now apply anyZeroSector_all_zero.
Qed.

Lemma isTornEntry_all_zero_witness :
  repeat x00 600 <> []
  /\ isTornEntry (mkDecoder [Sample.emptySegment] 100 (Sample.crc_New 0))
                 (repeat x00 600) = true
  /\ isTornEntry (mkDecoder [Sample.emptySegment; Sample.crcSegment] 100
                            (Sample.crc_New 0))
                 (repeat x00 600) = false.
Proof.
  assert (Hne : repeat x00 600 <> []) by discriminate.
  assert (Hz : Forall (fun v => v = x00) (repeat x00 600)).
  { apply Forall_forall. intros b Hb. now apply repeat_spec in Hb. }
  split; [exact Hne |]. split.
  - now rewrite isTornEntry_all_zero.
  - now rewrite isTornEntry_all_zero.
Defined.

(** ** More on single calls *)

(** X4. A header cut short: when fewer than eight bytes are left in the
    current segment, and the read does not end cleanly at the very start,
    the call returns the error of the read (io.ErrUnexpectedEOF when the
    file simply ends), does not move on to the next segment although one
    may be there, and leaves the offset, the accumulator and the record
    alone. *)
Theorem decodeRecord_header_cut {H : Type} `{Hash32 H} (crcType : Z)
        (Unmarshal : walpb_Record -> list byte -> walpb_Record * option error)
        (d : decoder) (rec : walpb_Record)
        (r : FileBufReader) (rest : list FileBufReader) :
  brs d = r :: rest ->
  (length (unread r) < 8)%nat ->
  unread r <> [] \/ isEOF (closing r) = false ->
  decodeRecord crcType Unmarshal d rec
  = mkResult (mkDecoder (mkReader [] (closing r) (Size r) :: rest)
                        (lastValidOff d) (crc d))
             rec
             (Some (if isEOF (closing r)
                    then io_ErrUnexpectedEOF else closing r)).
Proof.
  intros Hb Hlen Hcut.
  assert (Hread : readInt64 r
                  = (0, Some (if isEOF (closing r)
                              then io_ErrUnexpectedEOF else closing r),
                     mkReader [] (closing r) (Size r))).
  { unfold readInt64. rewrite ReadFull_short by lia.
    destruct (isEOF (closing r)) eqn:Ec; [| reflexivity].
    destruct (unread r); [| reflexivity].
    destruct Hcut; congruence. }
  apply decodeRecord_Return.
  apply decodeRecord_body_read_error with (1 := Hb) (2 := Hread).
  destruct (isEOF (closing r)) eqn:Ec; [reflexivity | exact Ec].
Qed.

Lemma decodeRecord_header_cut_witness :
  let torn := mkReader [x04; x00; x00] io_EOF 64 in
  let d := mkDecoder [torn; Sample.crcSegment] 48 (Sample.crc_New 0) in
  Sample.decodeRecord d Reset
  = mkResult (mkDecoder [mkReader [] io_EOF 64; Sample.crcSegment] 48
                        (Sample.crc_New 0))
             Reset (Some io_ErrUnexpectedEOF).
Proof.
  intros torn d.
  apply (decodeRecord_header_cut Sample.crcType Sample.Unmarshal d Reset
                                 torn [Sample.crcSegment]).
  - reflexivity.
  - cbn. lia.
  - left. discriminate.
Defined.

(** X5. A call that decodes a record from the current segment takes
    exactly 8 + recBytes + padBytes bytes from its reader, the amount by
    which it moves the offset, and leaves the readers behind it as they
    were. *)
Theorem decodeRecord_success_consumes {H : Type} `{Hash32 H} (crcType : Z)
        (Unmarshal : walpb_Record -> list byte -> walpb_Record * option error)
        (d : decoder) (rec : walpb_Record)
        (r r1 : FileBufReader) (rest : list FileBufReader)
        (l recBytes padBytes : Z) :
  decoder_ok d ->
  brs d = r :: rest ->
  readInt64 r = (l, None, r1) -> l <> 0 ->
  decodeFrameSize l = (recBytes, padBytes) ->
  let res := decodeRecord crcType Unmarshal d rec in
  err res = None ->
  8 + recBytes + padBytes <= Z.of_nat (length (unread r))
  /\ brs (dec res)
     = mkReader (skipn (Z.to_nat (8 + recBytes + padBytes)) (unread r))
                (closing r) (Size r) :: rest
  /\ lastValidOff (dec res) - lastValidOff d = 8 + recBytes + padBytes.
Proof.
  intros Hok Hb Hr Hl Hd res. unfold res.
  destruct (decodeFrameSize_bounds _ _ _ Hd) as [Hrb Hpb].
  destruct (Z_gt_le_dec recBytes (Size r - lastValidOff d - padBytes))
    as [Hgt | Hle].
  { rewrite (decodeRecord_Return crcType Unmarshal d _ rec _ _
               (decodeRecord_body_limit crcType Unmarshal d rec r r1 rest l
                                        recBytes padBytes Hok Hb Hr Hl Hd Hgt)).
    discriminate. }
  pose proof (decodeRecord_body_frame crcType Unmarshal d rec r r1 rest l
                                      recBytes padBytes Hok Hb Hr Hl Hd Hle)
    as Hbody.
  destruct (ReadFull r1 (recBytes + padBytes)) as [[data [e |]] r2] eqn:Hf.
  { rewrite (decodeRecord_Return _ _ _ _ _ _ _ Hbody). discriminate. }
  apply ReadFull_ok in Hf; [| lia]. destruct Hf as (Hlen & _ & _ & Hr2).
  apply readInt64_ok in Hr. destruct Hr as (H8 & _ & Hr1).
  assert (Hafter : r2 = mkReader
                          (skipn (Z.to_nat (8 + recBytes + padBytes))
                                 (unread r))
                          (closing r) (Size r)).
  { rewrite Hr2, Hr1. cbn [unread closing Size].
    rewrite skipn_skipn. f_equal. f_equal. lia. }
  assert (Hroom : 8 + recBytes + padBytes <= Z.of_nat (length (unread r))).
  { rewrite Hr1 in Hlen. cbn [unread] in Hlen.
    rewrite length_skipn in Hlen. lia. }
  destruct (Unmarshal rec _) as [rec1 [e |]].
  { rewrite (decodeRecord_Return _ _ _ _ _ _ _ Hbody). discriminate. }
  cbv zeta in Hbody.
  destruct (Type_ rec1 =? crcType).
  { rewrite (decodeRecord_Return _ _ _ _ _ _ _ Hbody).
    cbn [err dec brs lastValidOff].
    intros _. rewrite Hafter. repeat split; lia. }
  destruct (Crc rec1 =? _);
    rewrite (decodeRecord_Return _ _ _ _ _ _ _ Hbody);
    cbn [err dec brs lastValidOff].
  - intros _. rewrite Hafter. repeat split; lia.
  - discriminate.
Qed.

Lemma decodeRecord_success_consumes_witness :
  let d := Sample.newDecoder [Sample.fullSegment; Sample.crcSegment] in
  let res := Sample.decodeRecord d Reset in
  brs (dec res)
  = [mkReader (Sample.frame Sample.crcRecord 4 ++ repeat x00 16) io_EOF 48;
     Sample.crcSegment]
  /\ lastValidOff (dec res) - lastValidOff d = 16.
Proof.
  intros d res.
  destruct (decodeRecord_success_consumes
              Sample.crcType Sample.Unmarshal d Reset
              Sample.fullSegment
              (mkReader (skipn 8 (unread Sample.fullSegment)) io_EOF 48)
              [Sample.crcSegment] (encodeFrameHeader 4 4) 4 4)
    as (_ & Hbrs & Hoff).
  - ok_now.
  - reflexivity.
  - reflexivity.
  - discriminate.
  - reflexivity.
  - reflexivity.
  - subst res. unfold Sample.decodeRecord. rewrite Hbrs, Hoff.
    split; reflexivity.
Defined.

(** X6. With another segment behind the current one a failure of the
    record is never turned into io.ErrUnexpectedEOF by the classifier,
    whatever the bytes are: a failed unmarshal returns the error of
    Unmarshal itself, a failed validation the error of Validate. *)
Theorem decodeRecord_failure_with_more_segments
        {H : Type} `{Hash32 H} (crcType : Z)
        (Unmarshal : walpb_Record -> list byte -> walpb_Record * option error)
        (d : decoder) (rec rec1 : walpb_Record)
        (r r1 r2 : FileBufReader) (rest : list FileBufReader)
        (l recBytes padBytes : Z) (data : list byte) :
  decoder_ok d ->
  brs d = r :: rest -> rest <> [] ->
  readInt64 r = (l, None, r1) -> l <> 0 ->
  decodeFrameSize l = (recBytes, padBytes) ->
  recBytes <= Size r - lastValidOff d - padBytes ->
  ReadFull r1 (recBytes + padBytes) = (data, None, r2) ->
  let res := decodeRecord crcType Unmarshal d rec in
  (forall e, Unmarshal rec (firstn (Z.to_nat recBytes) data) = (rec1, Some e) ->
             err res = Some e)
  /\ (forall e, Unmarshal rec (firstn (Z.to_nat recBytes) data) = (rec1, None) ->
                Type_ rec1 <> crcType ->
                Validate rec1 (Sum32 (Write (crc d) (Data rec1))) = Some e ->
                err res = Some e).
Proof.
  intros Hok Hb Hne Hr Hl Hd Hle Hf res. unfold res.
  pose proof (decodeRecord_body_frame crcType Unmarshal d rec r r1 rest l
                                      recBytes padBytes Hok Hb Hr Hl Hd Hle)
    as Hbody.
  rewrite Hf in Hbody.
  assert (Hnot : forall (h : H) (off : Z),
             isTornEntry (mkDecoder (r2 :: rest) off h) data = false).
  { intros h off. unfold isTornEntry. cbn [brs length].
    destruct rest; [congruence | reflexivity]. }
  split.
  - intros e Hu. rewrite Hu in Hbody.
    rewrite (decodeRecord_Return _ _ _ _ _ _ _ Hbody). cbn [err].
    now rewrite Hnot.
  - intros e Hu Ht Hv. rewrite Hu in Hbody. cbv zeta in Hbody.
    destruct (Z.eqb_spec (Type_ rec1) crcType); [contradiction |].
    unfold Validate in Hv.
    destruct (Crc rec1 =? Sum32 (Write (crc d) (Data rec1))); [discriminate |].
    injection Hv as <-.
    rewrite (decodeRecord_Return _ _ _ _ _ _ _ Hbody). cbn [err].
    now rewrite Hnot.
Qed.

Lemma decodeRecord_failure_with_more_segments_witness :
  err (Sample.decodeRecord (Sample.newDecoder [Log.unwritten; Log.second])
                           Reset)
  = Some (ErrOther 1).
Proof.
  destruct (decodeRecord_failure_with_more_segments
              Sample.crcType Sample.Unmarshal
              (Sample.newDecoder [Log.unwritten; Log.second]) Reset Reset
              Log.unwritten
              (mkReader (repeat x00 8) io_EOF 64) (mkReader [] io_EOF 64)
              [Log.second] (encodeFrameHeader 4 4) 4 4 (repeat x00 8))
    as (Hu & _).
  - ok_now.
  - reflexivity.
  - discriminate.
  - reflexivity.
  - vm_compute. discriminate.
  - reflexivity.
  - cbn. lia.
  - reflexivity.
  - apply Hu. vm_compute. reflexivity.
Defined.

(** X7. In the last segment a record that fails is reported as
    io.ErrUnexpectedEOF when the bytes of its frame are all zero, and
    with the error of the failure itself when none of them is zero. *)
Theorem decodeRecord_failure_in_last_segment
        {H : Type} `{Hash32 H} (crcType : Z)
        (Unmarshal : walpb_Record -> list byte -> walpb_Record * option error)
        (d : decoder) (rec rec1 : walpb_Record)
        (r r1 r2 : FileBufReader)
        (l recBytes padBytes : Z) (data : list byte) (e : error) :
  decoder_ok d ->
  brs d = [r] ->
  readInt64 r = (l, None, r1) -> l <> 0 ->
  decodeFrameSize l = (recBytes, padBytes) ->
  recBytes <= Size r - lastValidOff d - padBytes ->
  ReadFull r1 (recBytes + padBytes) = (data, None, r2) ->
  Unmarshal rec (firstn (Z.to_nat recBytes) data) = (rec1, Some e)
  \/ (Unmarshal rec (firstn (Z.to_nat recBytes) data) = (rec1, None)
      /\ Type_ rec1 <> crcType
      /\ Validate rec1 (Sum32 (Write (crc d) (Data rec1))) = Some e) ->
  let res := decodeRecord crcType Unmarshal d rec in
  (data <> [] -> Forall (fun v => v = x00) data ->
   err res = Some io_ErrUnexpectedEOF)
  /\ (~ In x00 data -> err res = Some e).
Proof.
  intros Hok Hb Hr Hl Hd Hle Hf Hfail res. unfold res.
  pose proof (decodeRecord_body_frame crcType Unmarshal d rec r r1 [] l
                                      recBytes padBytes Hok Hb Hr Hl Hd Hle)
    as Hbody.
  rewrite Hf in Hbody.
  assert (Herr : exists d2 : @decoder H,
             length (brs d2) = 1%nat
             /\ err (decodeRecord crcType Unmarshal d rec)
                = Some (if isTornEntry d2 data
                        then io_ErrUnexpectedEOF else e)).
  { destruct Hfail as [Hu | (Hu & Ht & Hv)]; rewrite Hu in Hbody.
    - rewrite (decodeRecord_Return _ _ _ _ _ _ _ Hbody). cbn [err].
      eexists. split; [| reflexivity]. reflexivity.
    - cbv zeta in Hbody.
      destruct (Z.eqb_spec (Type_ rec1) crcType); [contradiction |].
      unfold Validate in Hv.
      destruct (Crc rec1 =? Sum32 (Write (crc d) (Data rec1)));
        [discriminate |].
      injection Hv as <-.
      rewrite (decodeRecord_Return _ _ _ _ _ _ _ Hbody). cbn [err].
      eexists. split; [| reflexivity]. reflexivity. }
  destruct Herr as (d2 & Hone & Herr). rewrite Herr. split.
  - intros Hne Hz. unfold isTornEntry. rewrite Hone. cbn [Nat.eqb negb].
    now rewrite anyZeroSector_all_zero.
  - intros Hnz. unfold isTornEntry. rewrite Hone. cbn [Nat.eqb negb].
    now rewrite anyZeroSector_no_zero_byte.
Qed.

Lemma decodeRecord_failure_in_last_segment_witness :
  err (Sample.decodeRecord (Sample.newDecoder [Log.unwritten]) Reset)
  = Some io_ErrUnexpectedEOF
  /\ err (Sample.decodeRecord (Sample.newDecoder [Log.damaged]) Reset)
     = Some ErrCRCMismatch.
Proof.
  split.
  - destruct (decodeRecord_failure_in_last_segment
                Sample.crcType Sample.Unmarshal
                (Sample.newDecoder [Log.unwritten]) Reset Reset
                Log.unwritten
                (mkReader (repeat x00 8) io_EOF 64) (mkReader [] io_EOF 64)
                (encodeFrameHeader 4 4) 4 4 (repeat x00 8) (ErrOther 1))
      as (Hz & _).
    + ok_now.
    + reflexivity.
    + reflexivity.
    + vm_compute. discriminate.
    + reflexivity.
    + cbn. lia.
    + reflexivity.
    + left. vm_compute. reflexivity.
    + apply Hz; [discriminate |]. repeat constructor.
  - destruct (decodeRecord_failure_in_last_segment
                Sample.crcType Sample.Unmarshal
                (Sample.newDecoder [Log.damaged]) Reset Log.wrong
                Log.damaged
                (mkReader (Sample.Marshal Log.wrong) io_EOF 64)
                (mkReader [] io_EOF 64)
                (encodeFrameHeader 8 0) 8 0 (Sample.Marshal Log.wrong)
                ErrCRCMismatch)
      as (_ & Hn).
    + ok_now.
    + reflexivity.
    + reflexivity.
    + vm_compute. discriminate.
    + reflexivity.
    + cbn. lia.
    + reflexivity.
    + right. vm_compute. repeat split; discriminate.
    + apply Hn. vm_compute.
      intros [E | [E | [E | [E | [E | [E | [E | [E | []]]]]]]]];
        discriminate E.
Defined.

(** ** What every call keeps *)

Lemma decodeRecord_body_offset {H : Type} `{Hash32 H} (crcType : Z)
      (Unmarshal : walpb_Record -> list byte -> walpb_Record * option error)
      (d : decoder) (rec : walpb_Record) :
  decoder_ok d -> offset_in_segment d ->
  match decodeRecord_body crcType Unmarshal d rec with
  | Return d' _ _ => offset_in_segment d'
  | Retry d' => offset_in_segment d'
  end.
Proof.
  intros Hok [Hlo Hhi].
  destruct (brs d) as [| r rest] eqn:Hb.
  { rewrite decodeRecord_body_nil by exact Hb.
    split; [exact Hlo | now rewrite Hb]. }
  destruct (sizes_in_range d r rest Hok Hb) as [Hoff Hsz].
  assert (Hrest : Forall (fun r => 0 <= Size r <= maxSegmentSize) rest).
  { destruct Hok as [_ Hall]. rewrite Hb in Hall. now inversion Hall. }
  assert (Hnext : match rest with
                  | [] => offset_in_segment (mkDecoder rest (lastValidOff d) (crc d))
                  | _ :: _ => offset_in_segment (mkDecoder rest 0 (crc d))
                  end).
  { destruct rest as [| r2 rest2].
    - split; [exact Hlo | exact I].
    - inversion Hrest; subst. split; cbn; lia. }
  assert (Hkeep : forall r' (h : H), Size r' = Size r ->
                    offset_in_segment
                      (mkDecoder (r' :: rest) (lastValidOff d) h)).
  { intros r' h Hs. split; cbn; [exact Hlo | lia]. }
  destruct (readInt64 r) as [[l e] r1] eqn:Hr.
  pose proof (readInt64_Size _ _ _ _ Hr) as Hs1.
  destruct e as [e |].
  - destruct (isEOF e) eqn:He.
    + destruct e; try discriminate He.
      rewrite (decodeRecord_body_exhausted crcType Unmarshal d rec r r1 rest
                                           l _ Hb Hr) by now left.
      now destruct rest.
    + rewrite (decodeRecord_body_read_error crcType Unmarshal d rec r r1 rest
                                            l e Hb Hr He).
      now apply Hkeep.
  - destruct (Z.eq_dec l 0) as [-> | Hl].
    + rewrite (decodeRecord_body_exhausted crcType Unmarshal d rec r r1 rest
                                           0 _ Hb Hr) by now right.
      now destruct rest.
    + destruct (decodeFrameSize l) as [recBytes padBytes] eqn:Hd.
      destruct (decodeFrameSize_bounds _ _ _ Hd) as [Hrb Hpb].
      destruct (Z_gt_le_dec recBytes (Size r - lastValidOff d - padBytes))
        as [Hgt | Hle].
      * rewrite (decodeRecord_body_limit crcType Unmarshal d rec r r1 rest l
                                         _ _ Hok Hb Hr Hl Hd Hgt).
        now apply Hkeep.
      * rewrite (decodeRecord_body_frame crcType Unmarshal d rec r r1 rest l
                                         _ _ Hok Hb Hr Hl Hd Hle).
        destruct (ReadFull r1 (recBytes + padBytes)) as [[data e] r2] eqn:Hf.
        pose proof (ReadFull_Size _ _ _ _ _ Hf) as Hs2.
        assert (Hs : Size r2 = Size r) by congruence.
        assert (Hafter : forall h : H,
                   offset_in_segment
                     (mkDecoder (r2 :: rest)
                                (lastValidOff d + 8 + recBytes + padBytes) h)).
        { intros h. split; cbn; lia. }
        destruct e as [e |]; [now apply Hkeep |].
        destruct (Unmarshal rec _) as [rec1 [e |]]; [now apply Hkeep |].
        cbv zeta.
        destruct (Type_ rec1 =? crcType); [apply Hafter |].
        destruct (Crc rec1 =? _); [apply Hafter | now apply Hkeep].
Qed.

(** X8. The offset never leaves the current segment by more than the
    eight bytes of a header: a new decoder has 0 <= lastValidOff and
    lastValidOff <= Size + 8 for the segment it reads, and every call
    keeps both (the size check lets a frame end up to eight bytes after
    the size of the file). *)
Theorem lastValidOff_in_segment {H : Type} `{Hash32 H} (crc_New : Z -> H)
        (crcType : Z)
        (Unmarshal : walpb_Record -> list byte -> walpb_Record * option error) :
  (forall readers : list FileBufReader,
      Forall (fun r => 0 <= Size r <= maxSegmentSize) readers ->
      decoder_ok (newDecoder crc_New readers)
      /\ offset_in_segment (newDecoder crc_New readers))
  /\
  (forall (d : decoder) (rec : walpb_Record),
      decoder_ok d -> offset_in_segment d ->
      decoder_ok (dec (decodeRecord crcType Unmarshal d rec))
      /\ offset_in_segment (dec (decodeRecord crcType Unmarshal d rec))).
Proof.
  split.
  - intros readers Hall. split; [now apply newDecoder_ok |].
    split; [cbn; lia |]. cbn [newDecoder brs lastValidOff].
    destruct readers as [| r rest]; [exact I |].
    inversion Hall; subst. lia.
  - intros d rec Hok Hin. split; [now apply decodeRecord_ok |].
    revert d Hok Hin.
    apply (decodeRecord_calls
             crcType Unmarshal rec
             (fun d res => decoder_ok d -> offset_in_segment d ->
                           offset_in_segment (dec res))).
    + intros d d' rec' e E Hok Hin.
      pose proof (decodeRecord_body_offset crcType Unmarshal d rec Hok Hin)
        as Hb.
      now rewrite E in Hb.
    + intros d d' res E IH Hok Hin.
      pose proof (decodeRecord_body_offset crcType Unmarshal d rec Hok Hin)
        as Hb.
      pose proof (decodeRecord_body_ok crcType Unmarshal d rec Hok) as Hb'.
      rewrite E in Hb, Hb'. now apply IH.
Qed.

Lemma lastValidOff_in_segment_witness :
  let d := Sample.newDecoder [Log.grown] in
  let res := Sample.decodeRecord d Reset in
  offset_in_segment d
  /\ offset_in_segment (dec res)
  /\ lastValidOff (dec res) = Size Log.grown + 8.
Proof.
  intros d res.
  destruct (lastValidOff_in_segment Sample.crc_New Sample.crcType
                                    Sample.Unmarshal) as (Hnew & Hstep).
  destruct (Hnew [Log.grown]) as (Hok & Hoff).
  { repeat constructor; cbn; unfold maxSegmentSize; lia. }
  split; [exact Hoff |]. split.
  - exact (proj2 (Hstep d Reset Hok Hoff)).
  - vm_compute. reflexivity.
Defined.

Lemma decodeRecord_body_EOF {H : Type} `{Hash32 H} (crcType : Z)
      (Unmarshal : walpb_Record -> list byte -> walpb_Record * option error)
      (d d' : decoder) (rec rec' : walpb_Record) :
  (forall rec0 bs rec1, Unmarshal rec0 bs <> (rec1, Some io_EOF)) ->
  decodeRecord_body crcType Unmarshal d rec = Return d' rec' (Some io_EOF) ->
  brs d' = [] /\ rec' = rec.
Proof.
  intros HU. unfold decodeRecord_body.
  destruct (brs d) as [| r rest] eqn:Hb.
  { intros E. injection E as <- <-. auto. }
  destruct (readInt64 r) as [[l e] r1].
  destruct (match e with Some e0 => isEOF e0 | None => l =? 0 end) eqn:Hx.
  - destruct rest; [| discriminate].
    intros E. injection E as <- <-. auto.
  - destruct e as [e |].
    { intros E. injection E as _ _ ->. discriminate Hx. }
    destruct (decodeFrameSize l) as [recBytes padBytes].
    destruct (recBytes >? _); [discriminate |].
    destruct (ReadFull r1 _) as [[data [e |]] r2].
    { destruct (isEOF e) eqn:He; [discriminate |].
      intros E. injection E as _ _ ->. discriminate He. }
    destruct (Unmarshal rec _) as [rec1 [e |]] eqn:Hu.
    { destruct (isTornEntry _ data); [discriminate |].
      intros E. injection E as _ _ ->. now apply HU in Hu. }
    destruct (negb _); [| discriminate].
    unfold Validate. destruct (Crc rec1 =? _); [discriminate |].
    destruct (isTornEntry _ data); discriminate.
Qed.

(** The unmarshaller of the concrete environment reports the end of its
    input inside a field as io.ErrUnexpectedEOF, never as io.EOF. *)
Lemma fields_not_EOF :
  forall (fuel : nat) (rec : walpb_Record) (bs : list byte)
         (rec1 : walpb_Record),
    Sample.fields fuel rec bs <> (rec1, Some io_EOF).
Proof.
  induction fuel as [| fuel IH]; intros rec bs rec1;
    (destruct bs as [| b bs]; [discriminate |]).
  - discriminate.
  - cbn [Sample.fields].
    repeat match goal with
           | |- context [match ?x with _ => _ end] => destruct x
           end;
      try discriminate; apply IH.
Qed.

(** X9. io.EOF is the end of the log: if Unmarshal never returns io.EOF
    itself, a call that returns io.EOF has dropped every reader and left
    the record alone, and every later call returns io.EOF again and
    changes nothing. *)
Theorem decodeRecord_EOF_final {H : Type} `{Hash32 H} (crcType : Z)
        (Unmarshal : walpb_Record -> list byte -> walpb_Record * option error)
        (d : decoder) (rec : walpb_Record) :
  (forall rec0 bs rec1, Unmarshal rec0 bs <> (rec1, Some io_EOF)) ->
  let res := decodeRecord crcType Unmarshal d rec in
  err res = Some io_EOF ->
  brs (dec res) = []
  /\ out res = rec
  /\ forall rec2,
       decodeRecord crcType Unmarshal (dec res) rec2
       = mkResult (dec res) rec2 (Some io_EOF).
Proof.
  intros HU res.
  assert (Hend : err res = Some io_EOF -> brs (dec res) = [] /\ out res = rec).
  { subst res. revert d.
    apply (decodeRecord_calls
             crcType Unmarshal rec
             (fun d res => err res = Some io_EOF ->
                           brs (dec res) = [] /\ out res = rec)).
    - intros d d' rec' e E He. cbn [err] in He. subst e. cbn [dec out].
      now apply (decodeRecord_body_EOF crcType Unmarshal d d' rec rec' HU).
    - intros d d' r0 _ IH. exact IH. }
  intros He. destruct (Hend He) as [Hb Ho].
  split; [exact Hb |]. split; [exact Ho |].
  intros rec2. apply decodeRecord_Return. now apply decodeRecord_body_nil.
Qed.

Lemma decodeRecord_EOF_final_witness :
  let d := mkDecoder [mkReader (repeat x00 64) io_EOF 128] 64
                     (Sample.crc_New 7) in
  let res := Sample.decodeRecord d Log.entryA in
  brs (dec res) = []
  /\ out res = Log.entryA
  /\ Sample.decodeRecord (dec res) Reset
     = mkResult (dec res) Reset (Some io_EOF).
Proof.
  intros d res.
  destruct (decodeRecord_EOF_final Sample.crcType Sample.Unmarshal d
                                   Log.entryA)
    as (Hb & Ho & Hagain).
  - intros rec0 bs rec1. apply fields_not_EOF.
  - vm_compute. reflexivity.
  - split; [exact Hb |]. split; [exact Ho |]. apply Hagain.
Defined.

(** ** Runs of calls *)

(** X10. The checksum chain over a run: after any number of successful
    calls the run has returned one record per call, every record that is
    not a control record declares the sum of the accumulator after its
    data, and the accumulator has absorbed the data of exactly those
    records, in order; control records leave it alone. *)
Theorem decodeN_checksum_chain {H : Type} `{Hash32 H} (crcType : Z)
        (Unmarshal : walpb_Record -> list byte -> walpb_Record * option error) :
  forall (n : nat) (d d' : decoder) (recs : list walpb_Record),
    decodeN crcType Unmarshal n d = (d', recs, None) ->
    length recs = n
    /\ validated crcType (crc d) recs
    /\ crc d' = absorbedData crcType (crc d) recs
    /\ lastCRC d' = Sum32 (absorbedData crcType (crc d) recs).
Proof.
  induction n as [| n IH]; intros d d' recs E.
  - cbn in E. injection E as <- <-. cbn. auto.
  - cbn [decodeN] in E.
    destruct (err (decode crcType Unmarshal d Reset)) as [e |] eqn:He.
    { discriminate E. }
    destruct (decodeN crcType Unmarshal n _) as [[d1 recs1] e1] eqn:En.
    injection E as Hd Hrecs He1. subst d1 recs e1.
    destruct (IH _ _ _ En) as (Hlen & Hval & Hcrc & _).
    pose proof (decodeRecord_success crcType Unmarshal d Reset) as Hs.
    cbv zeta in Hs. unfold decode in *.
    unfold lastCRC. cbn [length validated absorbedData fold_left].
    destruct (Hs He) as [[Ht Hc] | (Ht & Hw & Hsum)].
    + rewrite Ht, Z.eqb_refl. rewrite Hc in Hval, Hcrc.
      rewrite Hcrc. auto.
    + destruct (Z.eqb_spec (Type_ (out (decodeRecord crcType Unmarshal d Reset)))
                           crcType); [contradiction |].
      rewrite Hw in Hval, Hcrc. rewrite Hcrc. auto.
Qed.

Lemma decodeN_checksum_chain_witness :
  let recs := [Log.control; Log.entryA; Log.entryB; Log.control;
               Log.entryC] in
  validated Sample.crcType (Sample.crc_New 0) recs
  /\ Sum32 (absorbedData Sample.crcType (Sample.crc_New 0) recs)
     = Crc Log.entryC.
Proof.
  intros recs.
  destruct (decodeN_checksum_chain
              Sample.crcType Sample.Unmarshal 5
              (Sample.newDecoder [Log.first; Log.second])
              (mkDecoder [mkReader [] io_EOF 40] 40 (Crc Log.entryC))
              recs)
    as (_ & Hv & _ & Hc).
  - vm_compute. reflexivity.
  - split; [exact Hv |]. symmetry. exact Hc.
Defined.

(** ** The readers only move forward *)

Lemma ReadFull_forward (r r' : FileBufReader) (n : Z) (data : list byte)
      (e : option error) :
  ReadFull r n = (data, e, r') ->
  exists m, r' = mkReader (skipn m (unread r)) (closing r) (Size r).
Proof.
  unfold ReadFull. destruct (n <=? Z.of_nat (length (unread r))).
  - intros E. injection E as _ _ <-. now exists (Z.to_nat n).
  - intros E. injection E as _ _ <-. exists (length (unread r)).
    now rewrite skipn_all.
Qed.

Lemma readInt64_forward (r r' : FileBufReader) (l : Z) (e : option error) :
  readInt64 r = (l, e, r') ->
  exists m, r' = mkReader (skipn m (unread r)) (closing r) (Size r).
Proof.
  unfold readInt64.
  destruct (ReadFull r 8) as [[bs [e0 |]] r1] eqn:E;
    intros E'; injection E' as _ _ <-; now apply ReadFull_forward in E.
Qed.

Lemma decodeRecord_body_forward {H : Type} `{Hash32 H} (crcType : Z)
      (Unmarshal : walpb_Record -> list byte -> walpb_Record * option error)
      (d d' : decoder) (rec rec' : walpb_Record) (e : option error) :
  decodeRecord_body crcType Unmarshal d rec = Return d' rec' e ->
  brs d' = []
  \/ exists r rest m,
       brs d = r :: rest
       /\ brs d' = mkReader (skipn m (unread r)) (closing r) (Size r) :: rest.
Proof.
  unfold decodeRecord_body.
  destruct (brs d) as [| r rest] eqn:Hb.
  { intros E. injection E as <- _ _. now left. }
  destruct (readInt64 r) as [[l e1] r1] eqn:Hr.
  apply readInt64_forward in Hr. destruct Hr as [m1 Hr1].
  destruct (match e1 with Some e0 => isEOF e0 | None => l =? 0 end).
  - destruct rest; [| discriminate].
    intros E. injection E as <- _ _. now left.
  - assert (Hret : forall (h : H) off,
               exists r0 rest0 m,
                 r :: rest = r0 :: rest0
                 /\ brs (mkDecoder (r1 :: rest) off h)
                    = mkReader (skipn m (unread r0)) (closing r0) (Size r0)
                               :: rest0).
    { intros h off. exists r, rest, m1. now rewrite Hr1. }
    destruct e1 as [e1 |].
    { intros E. injection E as <- _ _. right. apply Hret. }
    destruct (decodeFrameSize l) as [recBytes padBytes].
    destruct (recBytes >? _).
    { intros E. injection E as <- _ _. right. apply Hret. }
    destruct (ReadFull r1 _) as [[data e2] r2] eqn:Hf.
    apply ReadFull_forward in Hf. destruct Hf as [m2 Hr2].
    assert (Hret2 : forall (h : H) off,
               exists r0 rest0 m,
                 r :: rest = r0 :: rest0
                 /\ brs (mkDecoder (r2 :: rest) off h)
                    = mkReader (skipn m (unread r0)) (closing r0) (Size r0)
                               :: rest0).
    { intros h off. exists r, rest, (m1 + m2)%nat.
      rewrite Hr2, Hr1. cbn [unread closing Size brs].
      now rewrite skipn_skipn, Nat.add_comm. }
    destruct e2 as [e2 |].
    { intros E. injection E as <- _ _. right. apply Hret2. }
    destruct (Unmarshal rec _) as [rec1 [e3 |]].
    { intros E. injection E as <- _ _. right. apply Hret2. }
    destruct (negb _).
    + destruct (Validate _ _); intros E; injection E as <- _ _; right;
        apply Hret2.
    + intros E. injection E as <- _ _. right. apply Hret2.
Qed.

(** X11. A call only moves forward: afterwards either no reader is
    left, or the list of readers is the list before with some readers
    dropped from its front, the next one at a later position of the same
    file, and those behind it exactly as they were. *)
Theorem decodeRecord_readers_forward {H : Type} `{Hash32 H} (crcType : Z)
        (Unmarshal : walpb_Record -> list byte -> walpb_Record * option error)
        (d : decoder) (rec : walpb_Record) :
  let res := decodeRecord crcType Unmarshal d rec in
  brs (dec res) = []
  \/ exists dropped r rest m,
       brs d = dropped ++ r :: rest
       /\ brs (dec res)
          = mkReader (skipn m (unread r)) (closing r) (Size r) :: rest.
Proof.
  cbv zeta. revert d.
  apply (decodeRecord_calls
           crcType Unmarshal rec
           (fun d res =>
              brs (dec res) = []
              \/ exists dropped r rest m,
                   brs d = dropped ++ r :: rest
                   /\ brs (dec res)
                      = mkReader (skipn m (unread r)) (closing r) (Size r)
                                 :: rest)).
  - intros d d' rec' e E. cbn [dec].
    destruct (decodeRecord_body_forward crcType Unmarshal d d' rec rec' e E)
      as [Hn | (r & rest & m & Hb & Hb')]; [now left |].
    right. exists [], r, rest, m. auto.
  - intros d d' res E [Hn | (dropped & r & rest & m & Hb & Hb')]; [now left |].
    apply decodeRecord_body_Retry in E. destruct E as (r0 & Hb0 & _).
    right. exists (r0 :: dropped), r, rest, m.
    rewrite Hb0, Hb. auto.
Qed.

(** ** Replaying well-formed segments *)

Lemma framesLen_nonneg (fs : list frame) : 0 <= framesLen fs.
Proof.
  induction fs as [| f fs IH]; cbn [framesLen fold_right]; [lia |].
  fold (framesLen fs). unfold frameLen. lia.
Qed.

Lemma ReadFull_prefix (a b : list byte) (c : error) (s : Z) :
  ReadFull (mkReader (a ++ b) c s) (Z.of_nat (length a))
  = (a, None, mkReader b c s).
Proof.
  unfold ReadFull. cbn [unread closing Size]. rewrite length_app.
  destruct (Z.leb_spec (Z.of_nat (length a))
                       (Z.of_nat (length a + length b))); [| lia].
  rewrite Nat2Z.id.
  rewrite firstn_app, Nat.sub_diag, firstn_all, firstn_O, app_nil_r.
  now rewrite skipn_app, Nat.sub_diag, skipn_all, skipn_O.
Qed.

(** One call on a segment that starts with a well-formed frame whose
    record unmarshals and passes the check. *)
Lemma decode_frame {H : Type} `{Hash32 H} (crcType : Z)
      (Unmarshal : walpb_Record -> list byte -> walpb_Record * option error)
      (d : decoder) (f : frame) (rec1 : walpb_Record)
      (more : list byte) (c : error) (s : Z) (rest : list FileBufReader) :
  decoder_ok d ->
  brs d = mkReader (frameBytes f ++ more) c s :: rest ->
  lastValidOff d + frameLen f <= s ->
  frame_ok f ->
  Unmarshal Reset (payload f) = (rec1, None) ->
  (if Type_ rec1 =? crcType then True
   else Crc rec1 = Sum32 (Write (crc d) (Data rec1))) ->
  decode crcType Unmarshal d Reset
  = mkResult (mkDecoder (mkReader more c s :: rest)
                        (lastValidOff d + frameLen f)
                        (if Type_ rec1 =? crcType then crc d
                         else Write (crc d) (Data rec1)))
             rec1 None.
Proof.
  intros Hok Hb Hsize (Hrange & Hnz & Hdec) Hu Hsum.
  unfold decode. apply decodeRecord_Return.
  assert (Hr : readInt64 (mkReader (frameBytes f ++ more) c s)
               = (lenField f, None,
                  mkReader (payload f ++ padding f ++ more) c s)).
  { unfold frameBytes. rewrite <- !app_assoc.
    now apply readInt64_putUint64. }
  unfold frameLen in *.
  rewrite (decodeRecord_body_frame
             crcType Unmarshal d Reset _ _ rest (lenField f)
             (Z.of_nat (length (payload f))) (Z.of_nat (length (padding f)))
             Hok Hb Hr Hnz Hdec)
    by (cbn [Size]; lia).
  replace (Z.of_nat (length (payload f)) + Z.of_nat (length (padding f)))
    with (Z.of_nat (length (payload f ++ padding f)))
    by (rewrite length_app; lia).
  rewrite app_assoc, ReadFull_prefix.
  rewrite Nat2Z.id, firstn_app, Nat.sub_diag, firstn_all, firstn_O, app_nil_r.
  rewrite Hu. cbv zeta.
  replace (lastValidOff d + 8 + Z.of_nat (length (payload f))
           + Z.of_nat (length (padding f)))
    with (lastValidOff d
          + (8 + Z.of_nat (length (payload f)) + Z.of_nat (length (padding f))))
    by lia.
  destruct (Type_ rec1 =? crcType); [reflexivity |].
  rewrite Hsum, Z.eqb_refl. reflexivity.
Qed.

(** A segment that holds well-formed frames one after the other, inside
    the size of the file, whose records unmarshal and continue the
    checksum chain of the decoder: as many calls as there are frames
    return the records in order. *)
Lemma decodeN_frames {H : Type} `{Hash32 H} (crcType : Z)
      (Unmarshal : walpb_Record -> list byte -> walpb_Record * option error) :
  forall (fs : list frame) (recs : list walpb_Record) (d : decoder)
         (tail : list byte) (c : error) (s : Z) (rest : list FileBufReader),
    decoder_ok d ->
    brs d = mkReader (flat_map frameBytes fs ++ tail) c s :: rest ->
    lastValidOff d + framesLen fs <= s ->
    Forall frame_ok fs ->
    unmarshals Unmarshal fs recs ->
    validated crcType (crc d) recs ->
    decodeN crcType Unmarshal (length fs) d
    = (mkDecoder (mkReader tail c s :: rest)
                 (lastValidOff d + framesLen fs)
                 (absorbedData crcType (crc d) recs),
       recs, None).
Proof.
  induction fs as [| f fs IH];
    intros recs d tail c s rest Hok Hb Hsize Hall Hu Hval.
  - destruct recs; [| contradiction]. cbn in *.
    rewrite Z.add_0_r, <- Hb. now destruct d.
  - destruct recs as [| rec1 recs]; [contradiction |].
    destruct Hu as [Hu1 Hu]. inversion Hall as [| ? ? Hf Hfs]; subst.
    cbn [flat_map] in Hb. rewrite <- app_assoc in Hb.
    cbn [framesLen fold_right] in Hsize |- *. fold (framesLen fs) in *.
    pose proof (framesLen_nonneg fs) as Hnn.
    assert (Hsum : if Type_ rec1 =? crcType then True
                   else Crc rec1 = Sum32 (Write (crc d) (Data rec1))).
    { cbn [validated] in Hval.
      destruct (Type_ rec1 =? crcType); [exact I | tauto]. }
    pose proof (decode_frame crcType Unmarshal d f rec1 _ c s rest
                             Hok Hb ltac:(lia) Hf Hu1 Hsum) as Hcall.
    cbn [length decodeN]. rewrite Hcall. cbn [err dec out].
    assert (Hok1 : decoder_ok
                     (mkDecoder (mkReader (flat_map frameBytes fs ++ tail) c s
                                          :: rest)
                                (lastValidOff d + frameLen f)
                                (if Type_ rec1 =? crcType then crc d
                                 else Write (crc d) (Data rec1)))).
    { pose proof (decodeRecord_ok crcType Unmarshal d Reset Hok) as Hk.
      unfold decode in Hcall. now rewrite Hcall in Hk. }
    rewrite (IH recs _ tail c s rest Hok1 eq_refl).
    + cbn [lastValidOff crc absorbedData fold_left].
      replace (lastValidOff d + frameLen f + framesLen fs)
        with (lastValidOff d + (frameLen f + framesLen fs)) by lia.
      reflexivity.
    + cbn [lastValidOff]. lia.
    + exact Hfs.
    + exact Hu.
    + cbn [crc validated] in Hval |- *.
      destruct (Type_ rec1 =? crcType); tauto.
Qed.

Lemma decodeN_app {H : Type} `{Hash32 H} (crcType : Z)
      (Unmarshal : walpb_Record -> list byte -> walpb_Record * option error) :
  forall (n m : nat) (d d1 : decoder) (recs1 : list walpb_Record),
    decodeN crcType Unmarshal n d = (d1, recs1, None) ->
    decodeN crcType Unmarshal (n + m) d
    = let '(d2, recs2, e) := decodeN crcType Unmarshal m d1 in
      (d2, recs1 ++ recs2, e).
Proof.
  induction n as [| n IH]; intros m d d1 recs1 E.
  - cbn in E. injection E as <- <-. cbn [Nat.add app].
    now destruct (decodeN crcType Unmarshal m d) as [[d2 recs2] e].
  - cbn [Nat.add decodeN] in E |- *.
    destruct (err (decode crcType Unmarshal d Reset)); [discriminate |].
    destruct (decodeN crcType Unmarshal n _) as [[d0 recs0] e0] eqn:En.
    injection E as -> <- ->.
    rewrite (IH m _ _ _ En).
    now destruct (decodeN crcType Unmarshal m d1) as [[d2 recs2] e].
Qed.

(** X12. Sequential replay: on a last segment that holds well-formed
    frames one after the other, inside the size of the file, whose
    records unmarshal and continue the checksum chain of the decoder, as
    many calls as there are frames return the records in order without an
    error, leaving the reader right after the frames, the offset moved by
    their total length and the accumulator at the end of the chain; and
    when the file ends there or goes on with a zero header, the next call
    returns io.EOF. *)
Theorem decodeN_replays_segment {H : Type} `{Hash32 H} (crcType : Z)
        (Unmarshal : walpb_Record -> list byte -> walpb_Record * option error)
        (fs : list frame) (recs : list walpb_Record) (d : decoder)
        (tail : list byte) (c : error) (s : Z)
        (l : Z) (e : option error) (r1 : FileBufReader) :
  decoder_ok d ->
  brs d = [mkReader (flat_map frameBytes fs ++ tail) c s] ->
  lastValidOff d + framesLen fs <= s ->
  Forall frame_ok fs ->
  unmarshals Unmarshal fs recs ->
  validated crcType (crc d) recs ->
  readInt64 (mkReader tail c s) = (l, e, r1) ->
  e = Some io_EOF \/ (e = None /\ l = 0) ->
  exists d',
    decodeN crcType Unmarshal (length fs) d = (d', recs, None)
    /\ brs d' = [mkReader tail c s]
    /\ lastOffset d' = lastValidOff d + framesLen fs
    /\ lastCRC d' = Sum32 (absorbedData crcType (crc d) recs)
    /\ decodeN crcType Unmarshal (S (length fs)) d
       = (mkDecoder [] (lastOffset d') (crc d'), recs, Some io_EOF).
Proof.
  intros Hok Hb Hsize Hall Hu Hval Hr He.
  pose proof (decodeN_frames crcType Unmarshal fs recs d tail c s []
                             Hok Hb Hsize Hall Hu Hval) as Hrun.
  eexists. split; [exact Hrun |].
  split; [reflexivity |]. split; [reflexivity |]. split; [reflexivity |].
  replace (S (length fs)) with (length fs + 1)%nat by lia.
  rewrite (decodeN_app crcType Unmarshal _ 1 _ _ _ Hrun).
  cbn [decodeN]. unfold decode.
  set (d1 := mkDecoder [mkReader tail c s] (lastValidOff d + framesLen fs)
                       (absorbedData crcType (crc d) recs)).
  rewrite (decodeRecord_Return
             crcType Unmarshal d1 _ Reset _ _
             (decodeRecord_body_exhausted crcType Unmarshal d1 Reset _ r1 []
                                          l e eq_refl Hr He)).
  cbn [err dec]. now rewrite app_nil_r.
Qed.

Lemma decodeN_replays_segment_witness :
  Log.decodeN 4 (Sample.newDecoder [Log.first])
  = (mkDecoder [] 64 (Crc Log.entryB),
     [Log.control; Log.entryA; Log.entryB], Some io_EOF).
Proof.
  destruct (decodeN_replays_segment
              Sample.crcType Sample.Unmarshal
              [Log.frameOf Log.control; Log.frameOf Log.entryA;
               Log.frameOf Log.entryB]
              [Log.control; Log.entryA; Log.entryB]
              (Sample.newDecoder [Log.first])
              (repeat x00 64) io_EOF 128
              0 None (mkReader (repeat x00 56) io_EOF 128))
    as (d' & _ & _ & Hoff & Hcrc & Hend).
  - ok_now.
  - reflexivity.
  - vm_compute. discriminate.
  - repeat constructor; vm_compute; try reflexivity; discriminate.
  - vm_compute. repeat split.
  - vm_compute. repeat split.
  - reflexivity.
  - right. split; reflexivity.
  - unfold Log.decodeN. cbn [length] in Hend. rewrite Hend, Hoff.
    unfold lastCRC in Hcrc. cbn [Sum32 Sample.digest] in Hcrc. rewrite Hcrc.
    vm_compute. reflexivity.
Defined.

(** X13. Replay across a segment boundary: when the frames of the
    current segment are followed by the end of the file or a zero header
    and the next segment holds well-formed frames too, as many calls as
    there are frames in both return all the records in order, and the
    offset afterwards is the total length of the frames of the second
    segment only: it counts from the start of the segment being read. *)
Theorem decodeN_replays_two_segments {H : Type} `{Hash32 H} (crcType : Z)
        (Unmarshal : walpb_Record -> list byte -> walpb_Record * option error)
        (fs1 fs2 : list frame) (recs1 recs2 : list walpb_Record) (d : decoder)
        (tail1 tail2 : list byte) (c1 c2 : error) (s1 s2 : Z)
        (rest : list FileBufReader)
        (l : Z) (e : option error) (r1 : FileBufReader) :
  decoder_ok d ->
  brs d = mkReader (flat_map frameBytes fs1 ++ tail1) c1 s1
          :: mkReader (flat_map frameBytes fs2 ++ tail2) c2 s2 :: rest ->
  readInt64 (mkReader tail1 c1 s1) = (l, e, r1) ->
  e = Some io_EOF \/ (e = None /\ l = 0) ->
  fs2 <> [] ->
  lastValidOff d + framesLen fs1 <= s1 ->
  framesLen fs2 <= s2 ->
  Forall frame_ok fs1 -> Forall frame_ok fs2 ->
  unmarshals Unmarshal fs1 recs1 -> unmarshals Unmarshal fs2 recs2 ->
  validated crcType (crc d) recs1 ->
  validated crcType (absorbedData crcType (crc d) recs1) recs2 ->
  decodeN crcType Unmarshal (length fs1 + length fs2) d
  = (mkDecoder (mkReader tail2 c2 s2 :: rest)
               (framesLen fs2)
               (absorbedData crcType (crc d) (recs1 ++ recs2)),
     recs1 ++ recs2, None).
Proof.
  intros Hok Hb Hr He Hne Hs1 Hs2 Hall1 Hall2 Hu1 Hu2 Hv1 Hv2.
  pose proof (decodeN_frames crcType Unmarshal fs1 recs1 d tail1 c1 s1 _
                             Hok Hb Hs1 Hall1 Hu1 Hv1) as Hrun1.
  rewrite (decodeN_app crcType Unmarshal _ (length fs2) _ _ _ Hrun1).
  set (h1 := absorbedData crcType (crc d) recs1) in *.
  set (seg2 := mkReader (flat_map frameBytes fs2 ++ tail2) c2 s2) in *.
  set (d1 := mkDecoder (mkReader tail1 c1 s1 :: seg2 :: rest)
                       (lastValidOff d + framesLen fs1) h1).
  set (d2 := mkDecoder (seg2 :: rest) 0 h1).
  assert (Hcross : decode crcType Unmarshal d1 Reset
                   = decode crcType Unmarshal d2 Reset).
  { unfold decode. apply decodeRecord_Retry.
    exact (decodeRecord_body_exhausted crcType Unmarshal d1 Reset _ r1
                                       (seg2 :: rest) l e eq_refl Hr He). }
  assert (Hsame : decodeN crcType Unmarshal (length fs2) d1
                  = decodeN crcType Unmarshal (length fs2) d2).
  { destruct fs2 as [| f fs2]; [congruence |].
    cbn [length decodeN]. now rewrite Hcross. }
  assert (Hok2 : decoder_ok d2).
  { destruct Hok as [_ Hsz]. rewrite Hb in Hsz.
    inversion Hsz as [| ? ? _ Hsz']; subst.
    split; [cbn; unfold maxSegmentSize; lia | exact Hsz']. }
  rewrite Hsame.
  rewrite (decodeN_frames crcType Unmarshal fs2 recs2 d2 tail2 c2 s2 rest
                          Hok2 eq_refl Hs2 Hall2 Hu2 Hv2).
  cbn [lastValidOff crc]. unfold h1, absorbedData.
  now rewrite fold_left_app, Z.add_0_l.
Qed.

Lemma decodeN_replays_two_segments_witness :
  Log.decodeN 5 (Sample.newDecoder [Log.first; Log.second])
  = (mkDecoder [mkReader [] io_EOF 40] 40 (Crc Log.entryC),
     [Log.control; Log.entryA; Log.entryB; Log.control; Log.entryC], None).
Proof.
  unfold Log.decodeN.
  rewrite (decodeN_replays_two_segments
             Sample.crcType Sample.Unmarshal
             [Log.frameOf Log.control; Log.frameOf Log.entryA;
              Log.frameOf Log.entryB]
             [Log.frameOf Log.control; Log.frameOf Log.entryC]
             [Log.control; Log.entryA; Log.entryB]
             [Log.control; Log.entryC]
             (Sample.newDecoder [Log.first; Log.second])
             (repeat x00 64) [] io_EOF io_EOF 128 40 []
             0 None (mkReader (repeat x00 56) io_EOF 128)).
  - vm_compute. reflexivity.
  - ok_now.
  - reflexivity.
  - reflexivity.
  - right. split; reflexivity.
  - discriminate.
  - vm_compute. discriminate.
  - vm_compute. discriminate.
  - repeat constructor; vm_compute; try reflexivity; discriminate.
  - repeat constructor; vm_compute; try reflexivity; discriminate.
  - vm_compute. repeat split.
  - vm_compute. repeat split.
  - vm_compute. repeat split.
  - vm_compute. repeat split.
Defined.
